(** * PySeekFast: a shallow embedding of [seekfast.py]

    The development follows the layout of the script: the Python built-ins
    it calls ([str.splitlines], [str.strip], [str.join], [str.lower],
    [str.endswith], tuple comparison, [list.sort]), the three extractors and
    their dispatcher, [search_file], [find_files] and the aggregation done
    by [main].

    Text is a list of Unicode code points, bytes are [Byte.byte].  Calls
    into [docx2txt], [PyPDF2], [olefile] and [pathlib] are answered by a
    [World] record; calls into [re] by an [ReEngine] record.  Exceptions
    and the lines printed on standard error are carried by a small
    writer/error monad. *)

From Stdlib Require Import String Ascii.
From Stdlib Require Import List NArith ZArith Arith Bool Lia.
From Stdlib Require Import Strings.Byte.
From Stdlib Require Import Permutation Sorted.
Import ListNotations.

Set Implicit Arguments.

(* ================================================================== *)
(** * Part I: definitions                                              *)
(* ================================================================== *)

(** ** Python strings and the built-ins used by the script *)

Module Py.

(** A Python [str]: its code points. *)
Definition str := list N.

(** A string literal of the development, read as code points. *)
Definition lit (s : string) : str :=
  map N_of_ascii (list_ascii_of_string s).

Arguments lit s%_string.

Definition str_eqb (a b : str) : bool :=
  if list_eq_dec N.eq_dec a b then true else false.

(** [c.isspace()] *)
Definition isspace (c : N) : bool :=
  ((9 <=? c) && (c <=? 13) || (28 <=? c) && (c <=? 32)
   || (c =? 133) || (c =? 160) || (c =? 5760)
   || (8192 <=? c) && (c <=? 8202)
   || (c =? 8232) || (c =? 8233) || (c =? 8239) || (c =? 8287)
   || (c =? 12288))%N.

(** [chr(b).isprintable()] for a code point below 256, which is all that
    [chr] of a byte produces. *)
Definition isprintable_latin1 (c : N) : bool :=
  ((32 <=? c) && (c <=? 126) || (161 <=? c) && (c <=? 172)
   || (174 <=? c) && (c <=? 255))%N.

(** The line boundaries of [str.splitlines]. *)
Definition is_linebreak (c : N) : bool :=
  ((10 <=? c) && (c <=? 13) || (28 <=? c) && (c <=? 30)
   || (c =? 133) || (c =? 8232) || (c =? 8233))%N.

(** [s.splitlines()]: a carriage return followed by a line feed is one
    boundary, and no empty line is produced after a final boundary. *)
Fixpoint splitlines (s : str) : list str :=
  match s with
  | [] => []
  | c :: r =>
      if is_linebreak c then
        [] :: match r with
              | c' :: r' =>
                  if ((c =? 13) && (c' =? 10))%N then splitlines r'
                  else splitlines r
              | [] => []
              end
      else
        match splitlines r with
        | [] => [[c]]
        | l :: ls => (c :: l) :: ls
        end
  end.

(** [sep.join(parts)] *)
Fixpoint join (sep : str) (parts : list str) : str :=
  match parts with
  | [] => []
  | [p] => p
  | p :: ps => p ++ sep ++ join sep ps
  end.

Fixpoint lstrip (s : str) : str :=
  match s with
  | [] => []
  | c :: r => if isspace c then lstrip r else s
  end.

Definition rstrip (s : str) : str := rev (lstrip (rev s)).

(** [s.strip()] *)
Definition strip (s : str) : str := rstrip (lstrip s).

(** [s.lower()] on the ASCII letters.  No code point outside ASCII
    lowers to one of the characters of [".docx"], [".doc"] or [".pdf"],
    so the suffix tests of [extract_text] see the same answer as with
    the full Unicode mapping. *)
Definition lower_chr (c : N) : N :=
  if ((65 <=? c) && (c <=? 90))%N then (c + 32)%N else c.

Definition lower (s : str) : str := map lower_chr s.

Fixpoint startswith (s prefix : str) : bool :=
  match prefix, s with
  | [], _ => true
  | _ :: _, [] => false
  | p :: ps, c :: cs => (p =? c)%N && startswith cs ps
  end.

(** [s.endswith(suffix)] *)
Definition endswith (s suffix : str) : bool :=
  startswith (rev s) (rev suffix).

(** [lst[a:b]] for [0 <= a] and [0 <= b]. *)
Definition slice (A : Type) (l : list A) (a b : nat) : list A :=
  firstn (b - a) (skipn a l).

(** [a < b] on [str]: lexicographic on code points. *)
Fixpoint str_compare (a b : str) : comparison :=
  match a, b with
  | [], [] => Eq
  | [], _ :: _ => Lt
  | _ :: _, [] => Gt
  | x :: a', y :: b' =>
      match (x ?= y)%N with
      | Eq => str_compare a' b'
      | o => o
      end
  end.

Definition str_lt (a b : str) : Prop := str_compare a b = Lt.

(** [range(0, n, 2)] *)
Definition range_step2 (n : nat) : list nat :=
  map (fun k => 2 * k) (seq 0 (Nat.div2 (n + 1))).

End Py.

Import Py.

(** ** Exceptions and standard error *)

(** The exceptions the script can meet: [re.error], and whatever a library
    call raises (a subclass of [Exception], kept with its message). *)
Inductive exn : Type :=
| re_error
| LibraryError (msg : str).

Inductive outcome (A : Type) : Type :=
| Ret (a : A)
| Raise (e : exn).

Arguments Ret {A} a.
Arguments Raise {A} e.

(** The lines the script prints on [sys.stderr]. *)
Inductive diagnostic : Type :=
| ErrorDoc (doc_path : str) (e : exn)
| ErrorDocx (docx_path : str) (e : exn)
| ErrorPdf (pdf_path : str) (e : exn)
| InvalidRegexPattern (term : str).

(** A computation: its outcome and what it printed on standard error. *)
Definition M (A : Type) : Type := (outcome A * list diagnostic)%type.

Definition ret (A : Type) (a : A) : M A := (Ret a, []).

Definition bind (A B : Type) (m : M A) (k : A -> M B) : M B :=
  match m with
  | (Ret a, w) => let (b, w') := k a in (b, w ++ w')
  | (Raise e, w) => (Raise e, w)
  end.

(** A library call: it prints nothing. *)
Definition call (A : Type) (o : outcome A) : M A := (o, []).

Definition print_stderr (d : diagnostic) : M unit := (Ret tt, [d]).

(** [try: body  except Exception as e: handler(e)] *)
Definition try_except (A : Type) (body : M A) (handler : exn -> M A) : M A :=
  match body with
  | (Ret a, w) => (Ret a, w)
  | (Raise e, w) => let (b, w') := handler e in (b, w ++ w')
  end.

Declare Scope py_scope.
Delimit Scope py_scope with py.
Notation "x <- m ;; k" := (bind m (fun x => k))
  (at level 61, m at next level, right associativity) : py_scope.
Notation "m ;;; k" := (bind m (fun _ => k))
  (at level 61, right associativity) : py_scope.
Local Open Scope py_scope.

(** ** The libraries and the file system *)

(** An [olefile.OleFileIO] object, as far as the script uses it. *)
Record OleFile : Type := {
  ole_exists_WordDocument : outcome bool;
  ole_read_WordDocument : outcome (list byte)
}.

Record World : Type := {
  (** [docx2txt.process(path)] *)
  docx2txt_process : str -> outcome str;
  (** [PdfReader(path)], then [page.extract_text()] of each of its pages *)
  PdfReader_pages : str -> outcome (list (outcome str));
  (** [olefile.isOleFile(path)] *)
  olefile_isOleFile : str -> outcome bool;
  (** [olefile.OleFileIO(path)] *)
  olefile_OleFileIO : str -> outcome OleFile;
  (** [[str(p) for p in Path(directory).rglob(pattern)]] *)
  rglob : str -> str -> list str
}.

(** ** The extractors *)

(** The body of the loop of [extract_text_from_doc] at index [i]. *)
Definition doc_step (content : list byte) (text : str) (i : nat) : str :=
  if (i + 1 <? length content) && (Byte.to_N (nth (i + 1) content x00) =? 0)%N
  then
    let char := Byte.to_N (nth i content x00) in
    if isprintable_latin1 char || isspace char then text ++ [char] else text
  else text.

(** The loop of [extract_text_from_doc] over [range(0, len(content), 2)]. *)
Definition doc_decode (content : list byte) : str :=
  fold_left (doc_step content) (range_step2 (length content)) [].

Definition extract_text_from_doc (W : World) (doc_path : str) : M str :=
  try_except
    (is_ole <- call (olefile_isOleFile W doc_path) ;;
     if negb is_ole then ret [] else
     ole <- call (olefile_OleFileIO W doc_path) ;;
     has_stream <- call (ole_exists_WordDocument ole) ;;
     if has_stream then
       content <- call (ole_read_WordDocument ole) ;;
       ret (doc_decode content)
     else ret [])
    (fun e => print_stderr (ErrorDoc doc_path e) ;;; ret []).

Definition extract_text_from_docx (W : World) (docx_path : str) : M str :=
  try_except
    (call (docx2txt_process W docx_path))
    (fun e => print_stderr (ErrorDocx docx_path e) ;;; ret []).

(** The loop of [extract_text_from_pdf] over the pages. *)
Fixpoint pdf_pages_loop (pages : list (outcome str)) (text : str) : M str :=
  match pages with
  | [] => ret text
  | page :: rest =>
      t <- call page ;;
      pdf_pages_loop rest (text ++ t ++ [10%N])
  end.

Definition extract_text_from_pdf (W : World) (pdf_path : str) : M str :=
  try_except
    (pages <- call (PdfReader_pages W pdf_path) ;;
     pdf_pages_loop pages [])
    (fun e => print_stderr (ErrorPdf pdf_path e) ;;; ret []).

Definition dot_docx : str := lit ".docx".
Definition dot_doc : str := lit ".doc".
Definition dot_pdf : str := lit ".pdf".

Definition extract_text (W : World) (file_path : str) : M str :=
  let file_path_lower := lower file_path in
  if endswith file_path_lower dot_docx then extract_text_from_docx W file_path
  else if endswith file_path_lower dot_doc then extract_text_from_doc W file_path
  else if endswith file_path_lower dot_pdf then extract_text_from_pdf W file_path
  else ret [].

(** ** The [re] module *)

(** What [search_file] uses of [re]: [re.compile(pattern, flags)], where
    the only flag is [re.IGNORECASE], and [pattern.search(line)] read as a
    truth value. *)
Record ReEngine : Type := {
  Pattern : Type;
  re_compile : str -> bool -> outcome Pattern;
  Pattern_search : Pattern -> str -> bool
}.

(** The characters [re.escape] puts a backslash before. *)
Definition special_chars : list N :=
  [9; 10; 11; 12; 13; 32; 35; 36; 38; 40; 41; 42; 43; 45; 46; 63;
   91; 92; 93; 94; 123; 124; 125; 126]%N.

Definition is_special (c : N) : bool := existsb (N.eqb c) special_chars.

(** [re.escape(pattern)] *)
Definition re_escape (pattern : str) : str :=
  flat_map (fun c => if is_special c then [92%N; c] else [c]) pattern.

(** The raw string [r'\b']: a backslash and the letter b. *)
Definition raw_b : str := [92; 98]%N.

(** ** [search_file] *)

Record MatchRecord : Type := {
  file : str;
  line_number : nat;
  term : str;
  context : str
}.

(** The loop over [enumerate(lines)] for one compiled pattern, from index
    [i] on; [rest] is what is left of [lines]. *)
Fixpoint scan_lines (E : ReEngine) (pattern : Pattern E) (lines : list str)
    (file_path search_term : str) (i : nat) (rest : list str)
    (results : list MatchRecord) : list MatchRecord :=
  match rest with
  | [] => results
  | line :: rest' =>
      scan_lines E pattern lines file_path search_term (S i) rest'
        (if Pattern_search E pattern line then
           let start := Z.to_nat (Z.max 0 (Z.of_nat i - 1)) in
           let stop := Nat.min (length lines) (i + 2) in
           let ctx := slice lines start stop in
           results ++ [ {| file := file_path;
                           line_number := i + 1;
                           term := search_term;
                           context := strip (join [10%N] ctx) |} ]
         else results)
  end.

(** The loop over [search_terms].  In regex mode [re.error] is caught, a
    line is printed and the loop continues; any other exception, and every
    exception of the two literal modes, leaves the function. *)
Fixpoint term_loop (E : ReEngine) (lines : list str) (file_path : str)
    (case_sensitive whole_word regex : bool) (search_terms : list str)
    (results : list MatchRecord) : M (list MatchRecord) :=
  match search_terms with
  | [] => ret results
  | t :: rest =>
      let ignorecase := negb case_sensitive in
      let continue_with r :=
        term_loop E lines file_path case_sensitive whole_word regex rest r in
      let scan pattern :=
        continue_with (scan_lines E pattern lines file_path t 0 lines results) in
      if regex then
        match re_compile E t ignorecase with
        | Ret pattern => scan pattern
        | Raise re_error =>
            print_stderr (InvalidRegexPattern t) ;;; continue_with results
        | Raise e => call (Raise e)
        end
      else if whole_word then
        pattern <- call (re_compile E (raw_b ++ re_escape t ++ raw_b) ignorecase) ;;
        scan pattern
      else
        pattern <- call (re_compile E (re_escape t) ignorecase) ;;
        scan pattern
  end.

Definition search_file (W : World) (E : ReEngine) (file_path : str)
    (search_terms : list str) (case_sensitive whole_word regex : bool)
    : M (list MatchRecord) :=
  text <- extract_text W file_path ;;
  match text with
  | [] => ret []
  | _ :: _ =>
      let lines := splitlines text in
      term_loop E lines file_path case_sensitive whole_word regex search_terms []
  end.

(** ** [find_files] *)

Definition find_files (W : World) (directory : str) (extensions : list str)
    : list str :=
  flat_map
    (fun ext =>
       let ext := if negb (startswith ext (lit ".")) then lit "." ++ ext else ext in
       rglob W directory (lit "*" ++ ext))
    extensions.

(** ** The aggregation of [main] *)

(** The key of [all_results.sort]. *)
Definition sort_key (x : MatchRecord) : str * nat := (file x, line_number x).

(** [a < b] on the key tuples. *)
Definition key_ltb (a b : str * nat) : bool :=
  match str_compare (fst a) (fst b) with
  | Lt => true
  | Eq => snd a <? snd b
  | Gt => false
  end.

(** [list.sort(key=...)] is a stable sort that compares keys with [<]
    only.  A stable sorted arrangement of a list is unique (lemma
    [stable_sorted_unique] below), so insertion computes the list the
    built-in returns. *)
Fixpoint sort_insert (A K : Type) (ltb : K -> K -> bool) (key : A -> K)
    (x : A) (l : list A) : list A :=
  match l with
  | [] => [x]
  | y :: l' =>
      if ltb (key y) (key x) then y :: sort_insert ltb key x l'
      else x :: l
  end.

Fixpoint list_sort (A K : Type) (ltb : K -> K -> bool) (key : A -> K)
    (l : list A) : list A :=
  match l with
  | [] => []
  | x :: l' => sort_insert ltb key x (list_sort ltb key l')
  end.

(** What one future adds to [all_results]: the records of its
    [search_file], or nothing when [future.result()] raises. *)
Definition future_result (W : World) (E : ReEngine) (terms : list str)
    (case_sensitive whole_word regex : bool) (f : str) : list MatchRecord :=
  match fst (search_file W E f terms case_sensitive whole_word regex) with
  | Ret results => results
  | Raise _ => []
  end.

(** [all_results] after the loop over [as_completed]; [completed] lists
    the files of the futures in the order they completed. *)
Definition all_results (W : World) (E : ReEngine) (terms : list str)
    (case_sensitive whole_word regex : bool) (completed : list str)
    : list MatchRecord :=
  flat_map (future_result W E terms case_sensitive whole_word regex) completed.

(** The list [main] hands to [display_results]. *)
Definition main_results (W : World) (E : ReEngine) (terms : list str)
    (case_sensitive whole_word regex : bool) (completed : list str)
    : list MatchRecord :=
  list_sort key_ltb sort_key
    (all_results W E terms case_sensitive whole_word regex completed).

(** The orders in which [as_completed] can yield the futures of a pool:
    [running] holds the files of the futures being executed, at most as
    many as there are workers, [queued] those still waiting in submission
    order.  Any running future may complete next, and the head of the
    queue takes the freed worker. *)
Inductive as_completed : list str -> list str -> list str -> Prop :=
| as_completed_done : as_completed [] [] []
| as_completed_next (r1 r2 queued order : list str) (f : str) :
    as_completed (r1 ++ r2 ++ firstn 1 queued) (skipn 1 queued) order ->
    as_completed (r1 ++ f :: r2) queued (f :: order).

(** The completion orders of the executor of [main] with [jobs] workers. *)
Definition completion_order (jobs : nat) (files completed : list str) : Prop :=
  as_completed (firstn jobs files) (skipn jobs files) completed.

(** ** Notions used to state the properties *)

(** The pattern [search_file] compiles for a term, by mode. *)
Definition compiled_pattern (E : ReEngine) (case_sensitive whole_word regex : bool)
    (t : str) : outcome (Pattern E) :=
  if regex then re_compile E t (negb case_sensitive)
  else if whole_word then re_compile E (raw_b ++ re_escape t ++ raw_b) (negb case_sensitive)
  else re_compile E (re_escape t) (negb case_sensitive).


(** The context the code builds for a hit at 0-based index [i]. *)
Definition context_at (lines : list str) (i : nat) : str :=
  strip (join [10%N]
           (slice lines (Z.to_nat (Z.max 0 (Z.of_nat i - 1)))
                        (Nat.min (length lines) (i + 2)))).

(** The record [scan_lines] appends for a hit at 0-based index [i]. *)
Definition record_at (lines : list str) (file_path t : str) (i : nat)
    : MatchRecord :=
  {| file := file_path;
     line_number := i + 1;
     term := t;
     context := context_at lines i |}.

(** The records of one pattern over [rest], whose first line has index [i]. *)
Fixpoint hits (E : ReEngine) (pattern : Pattern E) (lines : list str)
    (file_path t : str) (i : nat) (rest : list str) : list MatchRecord :=
  match rest with
  | [] => []
  | line :: rest' =>
      (if Pattern_search E pattern line then [record_at lines file_path t i]
       else [])
      ++ hits E pattern lines file_path t (S i) rest'
  end.

(** The records of one term: those of its pattern, none when the term was
    skipped. *)
Definition term_records (E : ReEngine) (lines : list str) (file_path : str)
    (case_sensitive whole_word regex : bool) (t : str) : list MatchRecord :=
  match compiled_pattern E case_sensitive whole_word regex t with
  | Ret pattern => hits E pattern lines file_path t 0 lines
  | Raise _ => []
  end.

(** No term makes the loop over the terms leave [search_file]: each one
    compiles, or is a regex-mode term refused with [re.error]. *)
Definition terms_accepted (E : ReEngine) (case_sensitive whole_word regex : bool)
    (terms : list str) : Prop :=
  Forall
    (fun t =>
       match compiled_pattern E case_sensitive whole_word regex t with
       | Ret _ => True
       | Raise re_error => regex = true
       | Raise _ => False
       end)
    terms.

(** An internal error of the extraction of a supported format: the
    library call that raises [e], by the branch of [extract_text] taken. *)
Inductive library_raises (W : World) (p : str) (e : exn) : Prop :=
| raises_docx2txt :
    endswith (lower p) dot_docx = true ->
    docx2txt_process W p = Raise e ->
    library_raises W p e
| raises_isOleFile :
    endswith (lower p) dot_doc = true ->
    olefile_isOleFile W p = Raise e ->
    library_raises W p e
| raises_OleFileIO :
    endswith (lower p) dot_doc = true ->
    olefile_isOleFile W p = Ret true ->
    olefile_OleFileIO W p = Raise e ->
    library_raises W p e
| raises_exists (ole : OleFile) :
    endswith (lower p) dot_doc = true ->
    olefile_isOleFile W p = Ret true ->
    olefile_OleFileIO W p = Ret ole ->
    ole_exists_WordDocument ole = Raise e ->
    library_raises W p e
| raises_read (ole : OleFile) :
    endswith (lower p) dot_doc = true ->
    olefile_isOleFile W p = Ret true ->
    olefile_OleFileIO W p = Ret ole ->
    ole_exists_WordDocument ole = Ret true ->
    ole_read_WordDocument ole = Raise e ->
    library_raises W p e
| raises_PdfReader :
    endswith (lower p) dot_pdf = true ->
    PdfReader_pages W p = Raise e ->
    library_raises W p e
| raises_page (pages : list (outcome str)) :
    endswith (lower p) dot_pdf = true ->
    PdfReader_pages W p = Ret pages ->
    In (Raise e) pages ->
    library_raises W p e.


(** The decoder as the specification words it: consecutive 2-byte pairs,
    the low byte of a pair kept when the high byte is zero and the
    character is printable or whitespace. *)
Fixpoint pairs_decode (content : list byte) : str :=
  match content with
  | lo :: hi :: rest =>
      (if (Byte.to_N hi =? 0)%N
       then if isprintable_latin1 (Byte.to_N lo) || isspace (Byte.to_N lo)
            then [Byte.to_N lo] else []
       else [])
      ++ pairs_decode rest
  | _ => []
  end.

(** The (file, term, line) triple of a record. *)
Definition triple (r : MatchRecord) : str * str * nat :=
  (file r, term r, line_number r).

(** [x] may stand before [y] in a list sorted with [<] on the keys: [y]'s
    key is not below [x]'s. *)
Definition key_le (A K : Type) (ltb : K -> K -> bool) (key : A -> K)
    (x y : A) : Prop :=
  ltb (key y) (key x) = false.

(** The elements of a list that carry the key [k]. *)
Definition has_key (A K : Type) (K_eq_dec : forall a b : K, {a = b} + {a <> b})
    (key : A -> K) (k : K) (x : A) : bool :=
  if K_eq_dec (key x) k then true else false.

Definition sort_key_eq_dec (a b : str * nat) : {a = b} + {a <> b}.
Proof.
  decide equality; [apply Nat.eq_dec | apply (list_eq_dec N.eq_dec)].
Defined.

(** An occurrence of [a] stands before an occurrence of [b] in [l]. *)
Definition Before (A : Type) (a b : A) (l : list A) : Prop :=
  exists l1 l2 l3, l = l1 ++ a :: l2 ++ b :: l3.

(** ** A matcher for the patterns of the literal modes

    [LitRe] is an [ReEngine] for the fragment of the pattern language that
    the two literal modes produce: ordinary characters, a backslash before
    a character that is not an ASCII letter or digit, and [\b].  A pattern
    outside the fragment is answered with [re.error].  Word characters
    and case folding are those of ASCII. *)

Module LitRe.

Inductive atom : Type :=
| Lit (c : N)
| WordBoundary.

(** [$ ( ) * + . ? [ ] ^ { | }] *)
Definition meta_chars : list N :=
  [36; 40; 41; 42; 43; 46; 63; 91; 93; 94; 123; 124; 125]%N.

Definition is_meta (c : N) : bool := existsb (N.eqb c) meta_chars.

Definition is_ascii_alnum (c : N) : bool :=
  ((48 <=? c) && (c <=? 57) || (65 <=? c) && (c <=? 90)
   || (97 <=? c) && (c <=? 122))%N.

Definition is_word (c : N) : bool := is_ascii_alnum c || (c =? 95)%N.

Fixpoint parse (s : str) : option (list atom) :=
  match s with
  | [] => Some []
  | c :: r =>
      if (c =? 92)%N then
        match r with
        | [] => None
        | e :: r' =>
            if (e =? 98)%N then option_map (cons WordBoundary) (parse r')
            else if is_ascii_alnum e then None
            else option_map (cons (Lit e)) (parse r')
        end
      else if is_meta c then None
      else option_map (cons (Lit c)) (parse r)
  end.

Definition chr_eqb (ignorecase : bool) (c d : N) : bool :=
  if ignorecase then (lower_chr c =? lower_chr d)%N else (c =? d)%N.

Definition word_opt (c : option N) : bool :=
  match c with Some x => is_word x | None => false end.

(** Do the atoms match at the start of [s], [prev] being the character
    before it? *)
Fixpoint match_here (ignorecase : bool) (atoms : list atom)
    (prev : option N) (s : str) : bool :=
  match atoms with
  | [] => true
  | WordBoundary :: atoms' =>
      xorb (word_opt prev) (word_opt (hd_error s))
      && match_here ignorecase atoms' prev s
  | Lit c :: atoms' =>
      match s with
      | [] => false
      | d :: s' => chr_eqb ignorecase c d && match_here ignorecase atoms' (Some d) s'
      end
  end.

Fixpoint search_from (ignorecase : bool) (atoms : list atom)
    (prev : option N) (s : str) : bool :=
  match_here ignorecase atoms prev s
  || match s with
     | [] => false
     | d :: s' => search_from ignorecase atoms (Some d) s'
     end.

Definition compile (pattern : str) (ignorecase : bool)
    : outcome (list atom * bool) :=
  match parse pattern with
  | Some atoms => Ret (atoms, ignorecase)
  | None => Raise re_error
  end.

Definition search (p : list atom * bool) (line : str) : bool :=
  search_from (snd p) (fst p) None line.

Definition engine : ReEngine :=
  {| Pattern := (list atom * bool)%type;
     re_compile := compile;
     Pattern_search := search |}.

End LitRe.

(** ** Sample inputs *)

Definition no_such_file : exn := LibraryError (lit "No such file or directory").

(** A directory holding one [.docx] file, [path], whose text is [text]. *)
Definition docx_world (path text : str) : World :=
  {| docx2txt_process := fun p => if str_eqb p path then Ret text else Raise no_such_file;
     PdfReader_pages := fun _ => Raise no_such_file;
     olefile_isOleFile := fun _ => Ret false;
     olefile_OleFileIO := fun _ => Raise no_such_file;
     rglob := fun _ pat => if str_eqb pat (lit "*.docx") then [path] else [] |}.

Definition a_docx : str := lit "a.docx".

(** A directory holding one [.doc] file, [path], a compound file whose
    [WordDocument] stream holds [content]. *)
Definition doc_world (path : str) (content : list byte) : World :=
  {| docx2txt_process := fun _ => Raise no_such_file;
     PdfReader_pages := fun _ => Raise no_such_file;
     olefile_isOleFile := fun p => if str_eqb p path then Ret true else Raise no_such_file;
     olefile_OleFileIO := fun p =>
       if str_eqb p path
       then Ret {| ole_exists_WordDocument := Ret true;
                   ole_read_WordDocument := Ret content |}
       else Raise no_such_file;
     rglob := fun _ pat => if str_eqb pat (lit "*.doc") then [path] else [] |}.

Definition b_doc : str := lit "b.doc".

Definition nl : str := [10%N].

(** A directory of [.docx] files, given with their texts. *)
Fixpoint docx_text (entries : list (str * str)) (p : str) : outcome str :=
  match entries with
  | [] => Raise no_such_file
  | (q, text) :: rest => if str_eqb p q then Ret text else docx_text rest p
  end.

Definition docx_dir (entries : list (str * str)) : World :=
  {| docx2txt_process := docx_text entries;
     PdfReader_pages := fun _ => Raise no_such_file;
     olefile_isOleFile := fun _ => Ret false;
     olefile_OleFileIO := fun _ => Raise no_such_file;
     rglob := fun _ pat =>
       if str_eqb pat (lit "*.docx") then map fst entries else [] |}.

Definition c_docx : str := lit "c.docx".

(** ** [display_results] and the messages of [main] *)

(** What the script sends to standard output or to the report file.  The
    two messages of [main] that print a list or counts are kept by their
    arguments. *)
Inductive action : Type :=
| Print (text : str)
| WriteFile (path text : str)
| PrintNoFiles (extensions : list str) (directory : str)
| PrintSearching (n_files n_terms : nat).

Fixpoint uint_chars (u : Decimal.uint) : str :=
  match u with
  | Decimal.Nil => []
  | Decimal.D0 u => 48%N :: uint_chars u
  | Decimal.D1 u => 49%N :: uint_chars u
  | Decimal.D2 u => 50%N :: uint_chars u
  | Decimal.D3 u => 51%N :: uint_chars u
  | Decimal.D4 u => 52%N :: uint_chars u
  | Decimal.D5 u => 53%N :: uint_chars u
  | Decimal.D6 u => 54%N :: uint_chars u
  | Decimal.D7 u => 55%N :: uint_chars u
  | Decimal.D8 u => 56%N :: uint_chars u
  | Decimal.D9 u => 57%N :: uint_chars u
  end.

(** [str(n)] for a non-negative integer. *)
Definition str_of_nat (n : nat) : str := uint_chars (Nat.to_uint n).

(** [f"Found {len(results)} matches:"] *)
Definition found_line (n : nat) : str :=
  lit "Found " ++ str_of_nat n ++ lit " matches:".

(** [f"\nFile: {current_file}"] *)
Definition file_header (f : str) : str := [10%N] ++ lit "File: " ++ f.

(** [f"Match for '{result['term']}' at line {result['line_number']}:"] *)
Definition match_line (result : MatchRecord) : str :=
  lit "Match for '" ++ term result ++ lit "' at line "
  ++ str_of_nat (line_number result) ++ lit ":".

(** ["-" * 60] *)
Definition rule_line : str := repeat 45%N 60.

(** The loop of [display_results] over the results. *)
Fixpoint display_loop (current_file : option str) (results : list MatchRecord)
    (output : list str) : list str :=
  match results with
  | [] => output
  | result :: rest =>
      let changed :=
        match current_file with
        | None => true
        | Some f => negb (str_eqb f (file result))
        end in
      display_loop
        (if changed then Some (file result) else current_file)
        rest
        ((if changed then output ++ [file_header (file result)] else output)
         ++ [match_line result; context result; rule_line])
  end.

(** [output_file] is [None] when the option is absent; an empty path is as
    good as none for [if output_file:]. *)
Definition display_results (results : list MatchRecord) (output_file : option str)
    : list action :=
  match results with
  | [] => [Print (lit "No matches found.")]
  | _ :: _ =>
      let output := display_loop None results [found_line (length results)] in
      let output_text := join [10%N] output in
      match output_file with
      | Some (c :: path) =>
          [WriteFile (c :: path) output_text;
           Print (lit "Results saved to " ++ c :: path)]
      | _ => [Print output_text]
      end
  end.

(** [main] after the arguments are parsed; [completed] is the order in
    which the futures completed. *)
Definition main (W : World) (E : ReEngine) (directory : str) (terms extensions : list str)
    (case_sensitive whole_word regex : bool) (output : option str)
    (completed : list str) : list action :=
  let files := find_files W directory extensions in
  match files with
  | [] => [PrintNoFiles extensions directory]
  | _ :: _ =>
      PrintSearching (length files) (length terms)
      :: display_results
           (main_results W E terms case_sensitive whole_word regex completed)
           output
  end.

(** ** Notions used to state further properties *)

(** The characters the decoder of [extract_text_from_doc] keeps. *)
Definition kept_chr (c : N) : bool := isprintable_latin1 c || isspace c.

(** The UTF-16LE encoding of characters below 256: the byte, then zero. *)
Definition utf16le_latin1 (s : list byte) : list byte :=
  flat_map (fun b => [b; x00]) s.

(** An extension as [find_files] uses it, with its leading dot. *)
Definition with_dot (ext : str) : str :=
  if startswith ext (lit ".") then ext else lit "." ++ ext.

(** The results cut into runs of consecutive records of one file. *)
Fixpoint group_by_file (results : list MatchRecord)
    : list (str * list MatchRecord) :=
  match results with
  | [] => []
  | r :: rest =>
      match group_by_file rest with
      | (f, g) :: groups =>
          if str_eqb (file r) f then (f, r :: g) :: groups
          else (file r, [r]) :: (f, g) :: groups
      | [] => [(file r, [r])]
      end
  end.

(** The lines of the report for one record and for one run. *)
Definition entry_lines (r : MatchRecord) : list str :=
  [match_line r; context r; rule_line].

Definition group_lines (g : str * list MatchRecord) : list str :=
  file_header (fst g) :: flat_map entry_lines (snd g).

(** A directory holding one [.pdf] file, [path], with the given pages. *)
Definition pdf_world (path : str) (pages : list (outcome str)) : World :=
  {| docx2txt_process := fun _ => Raise no_such_file;
     PdfReader_pages := fun p => if str_eqb p path then Ret pages else Raise no_such_file;
     olefile_isOleFile := fun _ => Ret false;
     olefile_OleFileIO := fun _ => Raise no_such_file;
     rglob := fun _ pat => if str_eqb pat (lit "*.pdf") then [path] else [] |}.

Definition d_pdf : str := lit "d.pdf".

(** A directory holding one compound file, [path], without a
    [WordDocument] stream. *)
Definition ole_world (path : str) : World :=
  {| docx2txt_process := fun _ => Raise no_such_file;
     PdfReader_pages := fun _ => Raise no_such_file;
     olefile_isOleFile := fun p => if str_eqb p path then Ret true else Raise no_such_file;
     olefile_OleFileIO := fun p =>
       if str_eqb p path
       then Ret {| ole_exists_WordDocument := Ret false;
                   ole_read_WordDocument := Raise no_such_file |}
       else Raise no_such_file;
     rglob := fun _ pat => if str_eqb pat (lit "*.doc") then [path] else [] |}.

(* ================================================================== *)
(** * Part II: properties                                              *)
(* ================================================================== *)

(** ** The monad *)

Lemma fst_bind (A B : Type) (m : M A) (k : A -> M B) :
  fst (bind m k) =
  match fst m with
  | Ret a => fst (k a)
  | Raise e => Raise e
  end.
Proof.
  destruct m as [[a | e] w]; simpl; [destruct (k a) |]; reflexivity.
Qed.


Lemma bind_call_Ret (A B : Type) (a : A) (k : A -> M B) :
  bind (call (Ret a)) k = k a.
Proof. unfold bind, call. destruct (k a); reflexivity. Qed.

Lemma bind_call_Raise (A B : Type) (e : exn) (k : A -> M B) :
  bind (call (Raise e)) k = (Raise e, []).
Proof. reflexivity. Qed.

(** ** The extractors never raise *)

Lemma extract_text_from_docx_cases (W : World) (p : str) :
  extract_text_from_docx W p =
  match docx2txt_process W p with
  | Ret t => (Ret t, [])
  | Raise e => (Ret [], [ErrorDocx p e])
  end.
Proof.
  unfold extract_text_from_docx, try_except, call.
  destruct (docx2txt_process W p); reflexivity.
Qed.

Lemma pdf_pages_loop_cases (pages : list (outcome str)) (text : str) :
  (exists t, pdf_pages_loop pages text = (Ret t, []) /\
             Forall (fun pg => exists s, pg = Ret s) pages) \/
  (exists e, pdf_pages_loop pages text = (Raise e, []) /\ In (Raise e) pages).
Proof.
  revert text. induction pages as [| pg rest IH]; intros text; cbn [pdf_pages_loop].
  - left. exists text. split; [reflexivity | constructor].
  - destruct pg as [s | e].
    + rewrite bind_call_Ret.
      destruct (IH (text ++ s ++ [10%N])) as [[t [Ht Hall]] | [e [He Hin]]].
      * left. exists t. split; [exact Ht |]. constructor; [eexists; reflexivity | exact Hall].
      * right. exists e. split; [exact He | right; exact Hin].
    + right. exists e. split; [reflexivity | left; reflexivity].
Qed.

Lemma extract_text_from_pdf_cases (W : World) (p : str) :
  (exists t, extract_text_from_pdf W p = (Ret t, [])) \/
  (exists e, extract_text_from_pdf W p = (Ret [], [ErrorPdf p e])).
Proof.
  unfold extract_text_from_pdf.
  destruct (PdfReader_pages W p) as [pages | e] eqn:Hp.
  - rewrite bind_call_Ret.
    destruct (pdf_pages_loop_cases pages []) as [[t [Ht _]] | [e [He _]]];
      rewrite ?Ht, ?He; simpl; [left | right]; eexists; reflexivity.
  - right. exists e. reflexivity.
Qed.

Lemma extract_text_from_doc_cases (W : World) (p : str) :
  (exists t, extract_text_from_doc W p = (Ret t, [])) \/
  (exists e, extract_text_from_doc W p = (Ret [], [ErrorDoc p e])).
Proof.
  unfold extract_text_from_doc.
  destruct (olefile_isOleFile W p) as [[|] | e]; simpl;
    [| left; eexists; reflexivity | right; eexists; reflexivity].
  destruct (olefile_OleFileIO W p) as [ole | e]; simpl;
    [| right; eexists; reflexivity].
  destruct (ole_exists_WordDocument ole) as [[|] | e]; simpl;
    [| left; eexists; reflexivity | right; eexists; reflexivity].
  destruct (ole_read_WordDocument ole) as [content | e]; simpl;
    [left | right]; eexists; reflexivity.
Qed.

(** Whatever the libraries do, [extract_text] returns, and a caught error
    goes with the empty string. *)
Lemma extract_text_cases (W : World) (p : str) :
  exists t d, extract_text W p = (Ret t, d) /\ (d <> [] -> t = []).
Proof.
  unfold extract_text.
  destruct (endswith (lower p) dot_docx).
  { rewrite extract_text_from_docx_cases.
    destruct (docx2txt_process W p); do 2 eexists; split; try reflexivity; congruence. }
  destruct (endswith (lower p) dot_doc).
  { destruct (extract_text_from_doc_cases W p) as [[t H] | [e H]]; rewrite H;
      do 2 eexists; split; try reflexivity; congruence. }
  destruct (endswith (lower p) dot_pdf).
  { destruct (extract_text_from_pdf_cases W p) as [[t H] | [e H]]; rewrite H;
      do 2 eexists; split; try reflexivity; congruence. }
  exists [], []. split; [reflexivity | congruence].
Qed.

Lemma extract_text_Ret (W : World) (p : str) :
  exists t, fst (extract_text W p) = Ret t.
Proof.
  destruct (extract_text_cases W p) as [t [d [H _]]]. exists t. rewrite H. reflexivity.
Qed.

(** The three suffixes exclude one another. *)
Lemma doc_not_docx (p : str) :
  endswith (lower p) dot_doc = true -> endswith (lower p) dot_docx = false.
Proof.
  unfold endswith.
  change (rev dot_doc) with [99; 111; 100; 46]%N.
  change (rev dot_docx) with [120; 99; 111; 100; 46]%N.
  destruct (rev (lower p)) as [| c r]; cbn [startswith]; [discriminate |].
  destruct (N.eqb_spec 99 c); [subst; reflexivity | cbn; discriminate].
Qed.

Lemma pdf_not_doc (p : str) :
  endswith (lower p) dot_pdf = true ->
  endswith (lower p) dot_docx = false /\ endswith (lower p) dot_doc = false.
Proof.
  unfold endswith.
  change (rev dot_pdf) with [102; 100; 112; 46]%N.
  change (rev dot_doc) with [99; 111; 100; 46]%N.
  change (rev dot_docx) with [120; 99; 111; 100; 46]%N.
  destruct (rev (lower p)) as [| c r]; cbn [startswith]; [discriminate |].
  destruct (N.eqb_spec 102 c); [subst; split; reflexivity | cbn; discriminate].
Qed.

Lemma pdf_pages_loop_raise (pages : list (outcome str)) (text : str) (e : exn) :
  In (Raise e) pages -> exists e', pdf_pages_loop pages text = (Raise e', []).
Proof.
  intros Hin.
  destruct (pdf_pages_loop_cases pages text) as [[t [_ Hall]] | [e' [He' _]]].
  - rewrite Forall_forall in Hall. destruct (Hall _ Hin) as [s Hs]. discriminate.
  - exists e'. exact He'.
Qed.

Lemma library_raises_empty (W : World) (p : str) (e : exn) :
  library_raises W p e -> exists d, extract_text W p = (Ret [], d) /\ d <> [].
Proof.
  unfold extract_text.
  destruct 1 as [Hx Hc | Hx Hc | Hx Ho Hc | ole Hx Ho Hf Hc | ole Hx Ho Hf Hs Hc
                 | Hx Hc | pages Hx Hc Hin];
    try (rewrite (doc_not_docx _ Hx), Hx);
    try (destruct (pdf_not_doc _ Hx) as [-> ->]; rewrite Hx);
    try rewrite Hx.
  7: destruct (pdf_pages_loop_raise pages [] e Hin) as [e' He'].
  all: eexists; split; [| shelve].
  - rewrite extract_text_from_docx_cases, Hc. reflexivity.
  - unfold extract_text_from_doc. rewrite Hc. reflexivity.
  - unfold extract_text_from_doc. rewrite Ho, bind_call_Ret. cbn [negb]. rewrite Hc.
    reflexivity.
  - unfold extract_text_from_doc. rewrite Ho, bind_call_Ret. cbn [negb].
    rewrite Hf, bind_call_Ret, Hc. reflexivity.
  - unfold extract_text_from_doc. rewrite Ho, bind_call_Ret. cbn [negb].
    rewrite Hf, bind_call_Ret, Hs, bind_call_Ret, Hc. reflexivity.
  - unfold extract_text_from_pdf. rewrite Hc. reflexivity.
  - unfold extract_text_from_pdf. rewrite Hc, bind_call_Ret, He'. reflexivity.
  Unshelve. all: discriminate.
Qed.

(** C4.  [extract_text] never raises: it always returns a string, empty
    whenever an error was caught; a path with none of the three suffixes
    gives the empty string whatever the libraries would answer (they are
    not asked); a [.doc] file that is not a compound file gives the empty
    string; and a raising library call in the extraction of a supported
    format gives the empty string with a diagnostic. *)
Theorem extract_text_never_raises (W : World) (p : str) :
  (exists t d, extract_text W p = (Ret t, d) /\ (d <> [] -> t = [])) /\
  (endswith (lower p) dot_docx = false ->
   endswith (lower p) dot_doc = false ->
   endswith (lower p) dot_pdf = false ->
   forall W', extract_text W' p = (Ret [], [])) /\
  (endswith (lower p) dot_doc = true ->
   olefile_isOleFile W p = Ret false ->
   extract_text W p = (Ret [], [])) /\
  (forall e, library_raises W p e ->
             exists d, extract_text W p = (Ret [], d) /\ d <> []).
Proof.
  split; [apply extract_text_cases |].
  split; [| split].
  - intros H1 H2 H3 W'. unfold extract_text. rewrite H1, H2, H3. reflexivity.
  - intros Hx Ho. unfold extract_text. rewrite (doc_not_docx _ Hx), Hx.
    unfold extract_text_from_doc. rewrite Ho. reflexivity.
  - intros e. apply library_raises_empty.
Qed.

Lemma extract_text_never_raises_witness :
  (forall W', extract_text W' (lit "notes.txt") = (Ret [], [])) /\
  extract_text (docx_world a_docx (lit "hello")) b_doc = (Ret [], []) /\
  (exists d, extract_text (docx_world a_docx (lit "hello")) (lit "c.DOCX") = (Ret [], d)
             /\ d <> []).
Proof.
  pose proof (extract_text_never_raises (docx_world a_docx (lit "hello")) (lit "notes.txt"))
    as [_ [H1 _]].
  pose proof (extract_text_never_raises (docx_world a_docx (lit "hello")) b_doc)
    as [_ [_ [H2 _]]].
  pose proof (extract_text_never_raises (docx_world a_docx (lit "hello")) (lit "c.DOCX"))
    as [_ [_ [_ H3]]].
  split; [apply H1; reflexivity |].
  split; [apply H2; reflexivity |].
  apply (H3 no_such_file). apply raises_docx2txt; reflexivity.
Defined.

(** ** The decoder of [extract_text_from_doc] *)

Lemma list_pair_ind (A : Type) (P : list A -> Prop) :
  P [] -> (forall x, P [x]) -> (forall x y l, P l -> P (x :: y :: l)) ->
  forall l, P l.
Proof.
  intros H0 H1 H2.
  assert (H : forall l, P l /\ forall x, P (x :: l)).
  { induction l as [| y l [IH1 IH2]]; split; auto. }
  intros l. apply H.
Qed.

Lemma div2_pair (n : nat) : Nat.div2 (S (S n) + 1) = S (Nat.div2 (n + 1)).
Proof. reflexivity. Qed.

(** The loop from index [2 * k] on, [pre] being the [2 * k] bytes already
    passed. *)
Lemma doc_loop_pairs (rest : list byte) :
  forall (pre : list byte) (k : nat) (text : str),
    length pre = 2 * k ->
    fold_left (doc_step (pre ++ rest))
      (map (fun j => 2 * j) (seq k (Nat.div2 (length rest + 1)))) text
    = text ++ pairs_decode rest.
Proof.
  induction rest as [| x | x y rest IH] using list_pair_ind; intros pre k text Hk.
  - simpl. rewrite app_nil_r. reflexivity.
  - cbn [length Nat.add Nat.div2 seq map fold_left pairs_decode].
    unfold doc_step. rewrite length_app. cbn [length].
    replace (2 * k + 1 <? length pre + 1) with false
      by (symmetry; apply Nat.ltb_ge; lia).
    rewrite app_nil_r. reflexivity.
  - cbn [length]. rewrite div2_pair. cbn [seq map fold_left].
    replace (pre ++ x :: y :: rest) with ((pre ++ [x; y]) ++ rest)
      by (rewrite <- app_assoc; reflexivity).
    rewrite (IH (pre ++ [x; y]) (S k)) by (rewrite length_app; cbn [length]; lia).
    cbn [pairs_decode]. rewrite app_assoc. f_equal.
    unfold doc_step.
    replace (2 * k + 1 <? length ((pre ++ [x; y]) ++ rest)) with true
      by (symmetry; apply Nat.ltb_lt; rewrite !length_app; cbn [length]; lia).
    rewrite <- !app_assoc. cbn [app].
    rewrite (app_nth2 pre) by lia. rewrite (app_nth2 pre) by lia.
    replace (2 * k + 1 - length pre) with 1 by lia.
    replace (2 * k - length pre) with 0 by lia.
    cbn [nth andb].
    destruct (Byte.to_N y =? 0)%N; [| rewrite app_nil_r; reflexivity].
    destruct (isprintable_latin1 (Byte.to_N x) || isspace (Byte.to_N x));
      [reflexivity | rewrite app_nil_r; reflexivity].
Qed.

Lemma doc_decode_pairs (content : list byte) :
  doc_decode content = pairs_decode content.
Proof.
  unfold doc_decode, range_step2.
  apply (doc_loop_pairs content [] 0 []). reflexivity.
Qed.

(** C5.  For a compound file whose [WordDocument] stream reads as
    [content], the decoder returns exactly the characters of the scan by
    2-byte pairs: the low byte of every pair whose high byte is zero and
    whose character is printable or whitespace, and nothing for any other
    pair. *)
Theorem doc_decoder_is_pair_scan (W : World) (p : str) (ole : OleFile)
    (content : list byte) :
  olefile_isOleFile W p = Ret true ->
  olefile_OleFileIO W p = Ret ole ->
  ole_exists_WordDocument ole = Ret true ->
  ole_read_WordDocument ole = Ret content ->
  extract_text_from_doc W p = (Ret (pairs_decode content), []).
Proof.
  intros Ho Hf Hs Hc. unfold extract_text_from_doc.
  rewrite Ho, bind_call_Ret. cbn [negb].
  rewrite Hf, bind_call_Ret, Hs, bind_call_Ret, Hc, bind_call_Ret.
  rewrite doc_decode_pairs. reflexivity.
Qed.

Lemma doc_decoder_is_pair_scan_witness :
  extract_text_from_doc (doc_world b_doc [x41; x00; x42; x01; x07; x00; x20; x00; x43]) b_doc
  = (Ret [65; 32]%N, []).
Proof.
  apply (@doc_decoder_is_pair_scan
           (doc_world b_doc [x41; x00; x42; x01; x07; x00; x20; x00; x43]) b_doc
           {| ole_exists_WordDocument := Ret true;
              ole_read_WordDocument := Ret [x41; x00; x42; x01; x07; x00; x20; x00; x43] |}
           [x41; x00; x42; x01; x07; x00; x20; x00; x43]);
    reflexivity.
Defined.

(** ** The loops of [search_file] *)

Lemma scan_lines_hits (E : ReEngine) (pattern : Pattern E) (lines : list str)
    (file_path t : str) (rest : list str) :
  forall (i : nat) (results : list MatchRecord),
    scan_lines E pattern lines file_path t i rest results
    = results ++ hits E pattern lines file_path t i rest.
Proof.
  induction rest as [| line rest IH]; intros i results; cbn [scan_lines hits].
  - rewrite app_nil_r. reflexivity.
  - rewrite IH. destruct (Pattern_search E pattern line).
    + rewrite <- app_assoc. reflexivity.
    + reflexivity.
Qed.

(** C9.  In regex mode the whole-word flag is not read: [search_file]
    returns the same records, and prints the same diagnostics, whatever
    its value. *)
Theorem regex_ignores_whole_word (W : World) (E : ReEngine) (file_path : str)
    (search_terms : list str) (case_sensitive w1 w2 : bool) :
  search_file W E file_path search_terms case_sensitive w1 true
  = search_file W E file_path search_terms case_sensitive w2 true.
Proof.
  assert (H : forall lines results,
             term_loop E lines file_path case_sensitive w1 true search_terms results
             = term_loop E lines file_path case_sensitive w2 true search_terms results).
  { intros lines. induction search_terms as [| t rest IH]; intros results.
    - reflexivity.
    - cbn [term_loop].
      destruct (re_compile E t (negb case_sensitive)) as [pat | [| msg]].
      + apply IH.
      + rewrite IH. reflexivity.
      + reflexivity. }
  unfold search_file.
  destruct (extract_text W file_path) as [[[| c text] | e] d]; cbn [bind];
    try reflexivity.
  rewrite H. reflexivity.
Qed.

Lemma hits_In (E : ReEngine) (pattern : Pattern E) (lines : list str)
    (file_path t : str) (rest : list str) (r : MatchRecord) :
  forall i : nat,
    In r (hits E pattern lines file_path t i rest) <->
    exists j line,
      nth_error rest j = Some line /\
      Pattern_search E pattern line = true /\
      r = record_at lines file_path t (i + j).
Proof.
  induction rest as [| line rest IH]; intros i; cbn [hits].
  - split; [intros [] |]. intros [[| j] [line [H _]]]; discriminate.
  - rewrite in_app_iff, IH. split.
    + intros [H | [j [l [Hn [Hs Hr]]]]].
      * destruct (Pattern_search E pattern line) eqn:Hs; [| destruct H].
        destruct H as [<- | []]. exists 0, line.
        rewrite Nat.add_0_r. repeat split; assumption.
      * exists (S j), l. rewrite Nat.add_succ_r. repeat split; assumption.
    + intros [[| j] [l [Hn [Hs Hr]]]].
      * left. injection Hn as <-. rewrite Hs, Nat.add_0_r in *. left. symmetry. exact Hr.
      * right. exists j, l. rewrite Nat.add_succ_r in Hr. repeat split; assumption.
Qed.

(** The loop over the terms returns exactly when every term is accepted,
    and then with the records of the terms, in the order of the terms. *)
Lemma term_loop_accepted (E : ReEngine) (lines : list str) (file_path : str)
    (cs ww rx : bool) (terms : list str) :
  terms_accepted E cs ww rx terms ->
  forall results,
    fst (term_loop E lines file_path cs ww rx terms results)
    = Ret (results ++ flat_map (term_records E lines file_path cs ww rx) terms).
Proof.
  unfold terms_accepted, term_records, compiled_pattern.
  induction 1 as [| t rest Ht Hrest IH]; intros results; cbn [term_loop flat_map].
  - rewrite app_nil_r. reflexivity.
  - destruct rx; [| destruct ww].
    + destruct (re_compile E t (negb cs)) as [pat | [| msg]].
      * rewrite IH, scan_lines_hits, app_assoc. reflexivity.
      * rewrite fst_bind. cbn [fst print_stderr]. rewrite IH. reflexivity.
      * destruct Ht.
    + destruct (re_compile E (raw_b ++ re_escape t ++ raw_b) (negb cs)) as [pat | [| msg]].
      * rewrite bind_call_Ret, IH, scan_lines_hits, app_assoc. reflexivity.
      * discriminate Ht.
      * destruct Ht.
    + destruct (re_compile E (re_escape t) (negb cs)) as [pat | [| msg]].
      * rewrite bind_call_Ret, IH, scan_lines_hits, app_assoc. reflexivity.
      * discriminate Ht.
      * destruct Ht.
Qed.

Lemma term_loop_Ret_accepted (E : ReEngine) (lines : list str) (file_path : str)
    (cs ww rx : bool) (terms : list str) :
  forall results rs,
    fst (term_loop E lines file_path cs ww rx terms results) = Ret rs ->
    terms_accepted E cs ww rx terms.
Proof.
  unfold terms_accepted, compiled_pattern.
  induction terms as [| t rest IH]; intros results rs H; [constructor |].
  cbn [term_loop] in H.
  destruct rx; [| destruct ww].
  - destruct (re_compile E t (negb cs)) as [pat | [| msg]] eqn:Hc.
    + constructor; [rewrite Hc; exact I | eapply IH; exact H].
    + rewrite fst_bind in H. cbn [fst print_stderr] in H.
      constructor; [rewrite Hc; reflexivity | eapply IH; exact H].
    + discriminate H.
  - destruct (re_compile E (raw_b ++ re_escape t ++ raw_b) (negb cs)) as [pat | e] eqn:Hc.
    + rewrite bind_call_Ret in H.
      constructor; [rewrite Hc; exact I | eapply IH; exact H].
    + discriminate H.
  - destruct (re_compile E (re_escape t) (negb cs)) as [pat | e] eqn:Hc.
    + rewrite bind_call_Ret in H.
      constructor; [rewrite Hc; exact I | eapply IH; exact H].
    + discriminate H.
Qed.

Lemma term_loop_Ret (E : ReEngine) (lines : list str) (file_path : str)
    (cs ww rx : bool) (terms : list str) (results rs : list MatchRecord) :
  fst (term_loop E lines file_path cs ww rx terms results) = Ret rs ->
  rs = results ++ flat_map (term_records E lines file_path cs ww rx) terms.
Proof.
  intros H. pose proof (@term_loop_Ret_accepted E lines file_path cs ww rx terms results rs H) as Hacc.
  rewrite (@term_loop_accepted E lines file_path cs ww rx terms Hacc) in H. congruence.
Qed.

(** [search_file] in terms of its two stages. *)
Lemma search_file_stages (W : World) (E : ReEngine) (file_path : str)
    (terms : list str) (cs ww rx : bool) (text : str) :
  fst (extract_text W file_path) = Ret text ->
  search_file W E file_path terms cs ww rx =
  match text with
  | [] => (Ret [], snd (extract_text W file_path))
  | _ :: _ =>
      (fst (term_loop E (splitlines text) file_path cs ww rx terms []),
       snd (extract_text W file_path)
       ++ snd (term_loop E (splitlines text) file_path cs ww rx terms []))
  end.
Proof.
  unfold search_file. destruct (extract_text W file_path) as [[t | e] d]; cbn [fst snd].
  - intros [= ->]. cbn [bind]. destruct text as [| c text].
    + cbn [ret]. rewrite app_nil_r. reflexivity.
    + destruct (term_loop E _ file_path cs ww rx terms []). reflexivity.
  - discriminate.
Qed.

Lemma search_file_Ret (W : World) (E : ReEngine) (file_path : str)
    (terms : list str) (cs ww rx : bool) (rs : list MatchRecord) :
  fst (search_file W E file_path terms cs ww rx) = Ret rs ->
  exists text,
    fst (extract_text W file_path) = Ret text /\
    (text = [] /\ rs = [] \/
     text <> [] /\ terms_accepted E cs ww rx terms /\
     rs = flat_map (term_records E (splitlines text) file_path cs ww rx) terms).
Proof.
  intros H. destruct (extract_text_Ret W file_path) as [text Ht].
  exists text. split; [exact Ht |].
  rewrite (@search_file_stages W E file_path terms cs ww rx text Ht) in H.
  destruct text as [| c text]; cbn [fst] in H.
  - left. split; congruence.
  - right. split; [discriminate |]. split.
    + eapply term_loop_Ret_accepted; exact H.
    + apply term_loop_Ret in H. exact H.
Qed.

Lemma search_file_accepted (W : World) (E : ReEngine) (file_path : str)
    (terms : list str) (cs ww rx : bool) (text : str) :
  fst (extract_text W file_path) = Ret text ->
  text <> [] ->
  terms_accepted E cs ww rx terms ->
  fst (search_file W E file_path terms cs ww rx)
  = Ret (flat_map (term_records E (splitlines text) file_path cs ww rx) terms).
Proof.
  intros Ht Hne Hacc. rewrite (@search_file_stages W E file_path terms cs ww rx text Ht).
  destruct text as [| c text]; [congruence |]. cbn [fst].
  rewrite (@term_loop_accepted E (splitlines (c :: text)) file_path cs ww rx terms Hacc). reflexivity.
Qed.

(** ** Lines *)

Lemma splitlines_final_newline_aux (s : str) :
  (forall c, is_linebreak c = false ->
             splitlines (s ++ [c; 10%N]) = splitlines (s ++ [c])) /\
  (forall d c, is_linebreak c = false ->
               splitlines (d :: s ++ [c; 10%N]) = splitlines (d :: s ++ [c])).
Proof.
  induction s as [| e s [IH1 IH2]].
  - assert (H0 : forall c, is_linebreak c = false ->
                           splitlines [c; 10%N] = splitlines [c]).
    { intros c Hc. cbn [splitlines]. rewrite Hc. reflexivity. }
    split; [exact H0 |].
    intros d c Hc. cbn [app]. cbn [splitlines]. rewrite Hc.
    destruct (is_linebreak d); [| reflexivity].
    replace ((d =? 13)%N && (c =? 10)%N) with false; [reflexivity |].
    destruct (N.eqb_spec c 10); [subst c; discriminate Hc |].
    rewrite andb_false_r. reflexivity.
  - split; [intros c Hc; apply (IH2 e c Hc) |].
    intros d c Hc. cbn [app].
    change (splitlines (d :: e :: s ++ [c; 10%N]))
      with (if is_linebreak d
            then [] :: (if ((d =? 13) && (e =? 10))%N
                        then splitlines (s ++ [c; 10%N])
                        else splitlines (e :: s ++ [c; 10%N]))
            else match splitlines (e :: s ++ [c; 10%N]) with
                 | [] => [[d]]
                 | l :: ls => (d :: l) :: ls
                 end).
    change (splitlines (d :: e :: s ++ [c]))
      with (if is_linebreak d
            then [] :: (if ((d =? 13) && (e =? 10))%N
                        then splitlines (s ++ [c])
                        else splitlines (e :: s ++ [c]))
            else match splitlines (e :: s ++ [c]) with
                 | [] => [[d]]
                 | l :: ls => (d :: l) :: ls
                 end).
    rewrite (IH1 c Hc), (IH2 e c Hc). reflexivity.
Qed.

(** No empty line is kept after a final line feed. *)
Lemma splitlines_final_newline (s : str) (c : N) :
  is_linebreak c = false ->
  splitlines (s ++ [c; 10%N]) = splitlines (s ++ [c]).
Proof. apply splitlines_final_newline_aux. Qed.

(** ** The records of [search_file] *)

(** C10.  Every record [search_file] returns is sound: it carries the
    input path, its line number lies between 1 and the number of lines of
    the extracted text (those of [splitlines], which keeps no empty line
    after a final line feed, see [splitlines_final_newline]), its term is
    one of the input terms, the pattern compiled for that term matches the
    line at that position, and its context is the one built around that
    line. *)
Theorem search_file_records_sound (W : World) (E : ReEngine) (file_path : str)
    (terms : list str) (cs ww rx : bool) (rs : list MatchRecord) (r : MatchRecord) :
  fst (search_file W E file_path terms cs ww rx) = Ret rs ->
  In r rs ->
  exists text pattern line,
    fst (extract_text W file_path) = Ret text /\
    file r = file_path /\
    1 <= line_number r <= length (splitlines text) /\
    nth_error (splitlines text) (line_number r - 1) = Some line /\
    In (term r) terms /\
    compiled_pattern E cs ww rx (term r) = Ret pattern /\
    Pattern_search E pattern line = true /\
    context r = context_at (splitlines text) (line_number r - 1).
Proof.
  intros H Hin.
  destruct (search_file_Ret _ _ _ _ _ _ _ H) as [text [Ht [[_ ->] | [_ [_ ->]]]]];
    [destruct Hin |].
  apply in_flat_map in Hin. destruct Hin as [t [Hterm Hr]].
  unfold term_records in Hr.
  destruct (compiled_pattern E cs ww rx t) as [pattern | e] eqn:Hc; [| destruct Hr].
  apply hits_In in Hr. destruct Hr as [j [line [Hn [Hs ->]]]].
  exists text, pattern, line. cbn [record_at file line_number term context Nat.add].
  replace (j + 1 - 1) with j by lia.
  assert (j < length (splitlines text)) by (apply nth_error_Some; congruence).
  repeat split; try assumption; lia.
Qed.

Lemma search_file_records_sound_witness :
  exists text pattern line,
    fst (extract_text (docx_world a_docx (lit "one" ++ nl ++ lit "two cats")) a_docx)
    = Ret text /\
    a_docx = a_docx /\
    1 <= 2 <= length (splitlines text) /\
    nth_error (splitlines text) 1 = Some line /\
    In (lit "cat") [lit "dog"; lit "cat"] /\
    compiled_pattern LitRe.engine false false false (lit "cat") = Ret pattern /\
    Pattern_search LitRe.engine pattern line = true /\
    lit "one" ++ nl ++ lit "two cats" = context_at (splitlines text) 1.
Proof.
  apply (@search_file_records_sound
           (docx_world a_docx (lit "one" ++ nl ++ lit "two cats")) LitRe.engine a_docx
           [lit "dog"; lit "cat"] false false false
           [record_at (splitlines (lit "one" ++ nl ++ lit "two cats")) a_docx (lit "cat") 1]
           (record_at (splitlines (lit "one" ++ nl ++ lit "two cats")) a_docx (lit "cat") 1)).
  - vm_compute. reflexivity.
  - left. reflexivity.
Defined.






(** ** Invalid patterns *)

Section InvalidPatterns.

Variable E : ReEngine.
Variables (lines : list str) (file_path : str) (cs ww : bool).




End InvalidPatterns.




(** ** The matcher of the literal modes *)

Lemma is_special_In (c : N) : is_special c = true <-> In c special_chars.
Proof.
  unfold is_special. rewrite existsb_exists. split.
  - intros [x [Hin Heq]]. apply N.eqb_eq in Heq. subst. exact Hin.
  - intros Hin. exists c. split; [exact Hin | apply N.eqb_refl].
Qed.

Lemma special_escaped (c : N) :
  is_special c = true ->
  (c =? 98)%N = false /\ LitRe.is_ascii_alnum c = false.
Proof.
  intros H. apply is_special_In in H. cbn [special_chars In] in H.
  repeat (destruct H as [<- | H]; [split; reflexivity |]). destruct H.
Qed.

Lemma ordinary_literal (c : N) :
  is_special c = false ->
  (c =? 92)%N = false /\ LitRe.is_meta c = false.
Proof.
  intros H. split.
  - destruct (N.eqb_spec c 92); [subst; discriminate H | reflexivity].
  - destruct (LitRe.is_meta c) eqn:Hm; [| reflexivity].
    unfold LitRe.is_meta in Hm. apply existsb_exists in Hm.
    destruct Hm as [x [Hin Heq]]. apply N.eqb_eq in Heq. subst x.
    cbn [LitRe.meta_chars In] in Hin.
    repeat (destruct Hin as [<- | Hin]; [discriminate H |]). destruct Hin.
Qed.

(** Escaping then parsing gives back the term, character by character. *)
Lemma parse_escape_app (t rest : str) :
  LitRe.parse (re_escape t ++ rest)
  = option_map (app (map LitRe.Lit t)) (LitRe.parse rest).
Proof.
  induction t as [| c t IH]; cbn [re_escape flat_map map app].
  - destruct (LitRe.parse rest); reflexivity.
  - fold (re_escape t). rewrite <- app_assoc.
    destruct (is_special c) eqn:Hs.
    + destruct (special_escaped c Hs) as [Hb Ha].
      cbn [app LitRe.parse]. rewrite N.eqb_refl, Hb, Ha, IH.
      destruct (LitRe.parse rest); reflexivity.
    + destruct (ordinary_literal c Hs) as [Hb Hm].
      cbn [app LitRe.parse]. rewrite Hb, Hm, IH.
      destruct (LitRe.parse rest); reflexivity.
Qed.

Lemma LitRe_compile_escape (t : str) (ignorecase : bool) :
  LitRe.compile (re_escape t) ignorecase = Ret (map LitRe.Lit t, ignorecase).
Proof.
  unfold LitRe.compile.
  rewrite <- (app_nil_r (re_escape t)), parse_escape_app. cbn.
  rewrite app_nil_r. reflexivity.
Qed.

Lemma LitRe_compile_whole_word (t : str) (ignorecase : bool) :
  LitRe.compile (raw_b ++ re_escape t ++ raw_b) ignorecase
  = Ret (LitRe.WordBoundary :: map LitRe.Lit t ++ [LitRe.WordBoundary], ignorecase).
Proof.
  unfold LitRe.compile, raw_b. cbn [app LitRe.parse N.eqb Pos.eqb].
  rewrite parse_escape_app. reflexivity.
Qed.



(** C7.  In whole-word literal mode the records of a term are the hits of
    the pattern compiled from the escaped term between two [\b]; escaping
    makes every character of the term literal; and the term [cat] finds
    nothing in the line [concatenate cats] with whole-word on, and the
    line with whole-word off. *)
Theorem whole_word_is_bounded_literal :
  (forall (W : World) (E : ReEngine) (file_path t text : str) (cs : bool)
          (pattern : Pattern E),
     fst (extract_text W file_path) = Ret text -> text <> [] ->
     re_compile E (raw_b ++ re_escape t ++ raw_b) (negb cs) = Ret pattern ->
     fst (search_file W E file_path [t] cs true false)
     = Ret (hits E pattern (splitlines text) file_path t 0 (splitlines text))) /\
  (forall (t : str) (ignorecase : bool),
     LitRe.compile (raw_b ++ re_escape t ++ raw_b) ignorecase
     = Ret (LitRe.WordBoundary :: map LitRe.Lit t ++ [LitRe.WordBoundary], ignorecase) /\
     LitRe.compile (re_escape t) ignorecase = Ret (map LitRe.Lit t, ignorecase)) /\
  search_file (docx_world a_docx (lit "concatenate cats")) LitRe.engine a_docx
    [lit "cat"] false true false = (Ret [], []) /\
  search_file (docx_world a_docx (lit "concatenate cats")) LitRe.engine a_docx
    [lit "cat"] false false false
  = (Ret [ {| file := a_docx; line_number := 1; term := lit "cat";
              context := lit "concatenate cats" |} ], []).
Proof.
  split; [| split; [| split]].
  - intros W E file_path t text cs pattern Ht Hne Hc.
    assert (Hacc : terms_accepted E cs true false [t]).
    { constructor; [| constructor]. unfold compiled_pattern. rewrite Hc. exact I. }
    rewrite (@search_file_accepted W E file_path [t] cs true false text Ht Hne Hacc).
    cbn [flat_map]. unfold term_records, compiled_pattern. rewrite Hc, app_nil_r.
    reflexivity.
  - intros t ic. split; [apply LitRe_compile_whole_word | apply LitRe_compile_escape].
  - vm_compute. reflexivity.
  - vm_compute. reflexivity.
Qed.

Lemma whole_word_is_bounded_literal_witness :
  fst (search_file (docx_world a_docx (lit "a cat sat")) LitRe.engine a_docx
         [lit "cat"] false true false)
  = Ret [record_at [lit "a cat sat"] a_docx (lit "cat") 0].
Proof.
  destruct whole_word_is_bounded_literal as [H _].
  apply (H (docx_world a_docx (lit "a cat sat")) LitRe.engine a_docx (lit "cat")
           (lit "a cat sat") false
           ([LitRe.WordBoundary; LitRe.Lit 99; LitRe.Lit 97; LitRe.Lit 116;
             LitRe.WordBoundary], true)).
  - reflexivity.
  - discriminate.
  - reflexivity.
Defined.

(** ** Stable sorting *)

Section StableSort.

Variables (A K : Type) (ltb : K -> K -> bool) (key : A -> K).
Variable K_eq_dec : forall a b : K, {a = b} + {a <> b}.

Hypothesis ltb_irrefl : forall a, ltb a a = false.
Hypothesis ltb_trans :
  forall a b c, ltb a b = true -> ltb b c = true -> ltb a c = true.
Hypothesis ltb_total :
  forall a b, ltb a b = false -> ltb b a = false -> a = b.

Local Abbreviation le := (key_le ltb key).
Local Abbreviation keyed := (has_key K_eq_dec key).
Local Abbreviation insert := (sort_insert ltb key).
Local Abbreviation sort := (list_sort ltb key).

Lemma key_le_trans (x y z : A) : le x y -> le y z -> le x z.
Proof.
  unfold key_le. intros Hxy Hyz.
  destruct (ltb (key z) (key x)) eqn:Hzx; [| reflexivity].
  destruct (ltb (key x) (key y)) eqn:Hlt.
  - rewrite (ltb_trans Hzx Hlt) in Hyz. discriminate.
  - rewrite (ltb_total Hlt Hxy) in Hzx. congruence.
Qed.

Lemma key_lt_le (x y : A) : ltb (key y) (key x) = true -> le y x.
Proof.
  unfold key_le. intros H.
  destruct (ltb (key x) (key y)) eqn:Hxy; [| reflexivity].
  pose proof (ltb_trans H Hxy) as Hyy.
  rewrite ltb_irrefl in Hyy. discriminate.
Qed.

Lemma sort_insert_perm (x : A) (l : list A) : Permutation (insert x l) (x :: l).
Proof.
  induction l as [| y l IH]; cbn [sort_insert]; [reflexivity |].
  destruct (ltb (key y) (key x)); [| reflexivity].
  rewrite IH. apply perm_swap.
Qed.

Lemma list_sort_perm (l : list A) : Permutation (sort l) l.
Proof.
  induction l as [| x l IH]; cbn [list_sort]; [reflexivity |].
  rewrite sort_insert_perm, IH. reflexivity.
Qed.

Lemma sort_insert_sorted (x : A) (l : list A) :
  StronglySorted le l -> StronglySorted le (insert x l).
Proof.
  induction 1 as [| y l Hs IH Hall]; cbn [sort_insert].
  - constructor; constructor.
  - destruct (ltb (key y) (key x)) eqn:Hyx.
    + constructor; [exact IH |].
      rewrite Forall_forall in *. intros z Hz.
      apply (Permutation_in _ (sort_insert_perm x l)) in Hz.
      destruct Hz as [<- | Hz]; [apply key_lt_le; exact Hyx | apply Hall; exact Hz].
    + constructor; [constructor; assumption |].
      constructor; [exact Hyx |].
      rewrite Forall_forall in *. intros z Hz.
      apply key_le_trans with y; [exact Hyx | apply Hall; exact Hz].
Qed.

Lemma list_sort_sorted (l : list A) : StronglySorted le (sort l).
Proof.
  induction l as [| x l IH]; cbn [list_sort]; [constructor |].
  apply sort_insert_sorted. exact IH.
Qed.

(** The sort is stable: the elements of one key keep their order. *)
Lemma sort_insert_stable (k : K) (x : A) (l : list A) :
  filter (keyed k) (insert x l) = filter (keyed k) (x :: l).
Proof.
  induction l as [| y l IH]; cbn [sort_insert]; [reflexivity |].
  destruct (ltb (key y) (key x)) eqn:Hyx; [| reflexivity].
  cbn [filter] in *. rewrite IH. unfold has_key.
  destruct (K_eq_dec (key y) k) as [Hy | Hy]; [| reflexivity].
  destruct (K_eq_dec (key x) k) as [Hx | Hx]; [| reflexivity].
  rewrite Hy, Hx, ltb_irrefl in Hyx. discriminate.
Qed.

Lemma list_sort_stable (k : K) (l : list A) :
  filter (keyed k) (sort l) = filter (keyed k) l.
Proof.
  induction l as [| x l IH]; cbn [list_sort]; [reflexivity |].
  rewrite sort_insert_stable. cbn [filter]. rewrite IH. reflexivity.
Qed.

Lemma keyed_self (x : A) : keyed (key x) x = true.
Proof. unfold has_key. destruct (K_eq_dec (key x) (key x)); congruence. Qed.

Lemma keyed_eq (k : K) (x : A) : keyed k x = true -> key x = k.
Proof. unfold has_key. destruct (K_eq_dec (key x) k); congruence. Qed.

(** Two sorted lists with the same elements of every key, in the same
    order, are equal: the stable sorted arrangement is unique. *)
Lemma stable_sorted_unique (l1 : list A) :
  forall l2,
    StronglySorted le l1 -> StronglySorted le l2 ->
    (forall k, filter (keyed k) l1 = filter (keyed k) l2) ->
    l1 = l2.
Proof.
  induction l1 as [| x l1 IH]; intros [| y l2] S1 S2 Hf.
  - reflexivity.
  - specialize (Hf (key y)). cbn [filter] in Hf. rewrite keyed_self in Hf. discriminate.
  - specialize (Hf (key x)). cbn [filter] in Hf. rewrite keyed_self in Hf. discriminate.
  - apply StronglySorted_inv in S1, S2. destruct S1 as [S1 A1], S2 as [S2 A2].
    rewrite Forall_forall in A1, A2.
    assert (Hk : key x = key y).
    { assert (Hx : In x (y :: l2)).
      { apply (filter_In (keyed (key x))). rewrite <- Hf. cbn [filter].
        rewrite keyed_self. left. reflexivity. }
      assert (Hy : In y (x :: l1)).
      { apply (filter_In (keyed (key y))). rewrite Hf. cbn [filter].
        rewrite keyed_self. left. reflexivity. }
      destruct Hx as [<- | Hx]; [reflexivity |].
      destruct Hy as [<- | Hy]; [reflexivity |].
      apply ltb_total; [apply (A2 _ Hx) | apply (A1 _ Hy)]. }
    assert (Hxy : x = y).
    { pose proof (Hf (key x)) as H. cbn [filter] in H.
      rewrite keyed_self in H. rewrite Hk, keyed_self in H. congruence. }
    subst y. f_equal. apply IH; try assumption.
    intros k. specialize (Hf k). cbn [filter] in Hf.
    destruct (keyed k x); congruence.
Qed.

Lemma sorted_positions (l : list A) :
  StronglySorted le l ->
  forall p q a b,
    p < q -> nth_error l p = Some a -> nth_error l q = Some b -> le a b.
Proof.
  induction 1 as [| x l Hs IH Hall]; intros p q a b Hpq Ha Hb.
  - destruct p; discriminate.
  - destruct q as [| q]; [lia |]. cbn [nth_error] in Hb.
    destruct p as [| p]; cbn [nth_error] in Ha.
    + injection Ha as <-. rewrite Forall_forall in Hall.
      apply Hall. eapply nth_error_In; exact Hb.
    + apply (IH p q); [lia | assumption | assumption].
Qed.

End StableSort.

(** ** The order on the sort keys *)

Lemma str_compare_refl (a : str) : str_compare a a = Eq.
Proof.
  induction a as [| x a IH]; cbn [str_compare]; [reflexivity |].
  rewrite N.compare_refl. exact IH.
Qed.

Lemma str_compare_eq (a : str) : forall b, str_compare a b = Eq -> a = b.
Proof.
  induction a as [| x a IH]; intros [| y b] H; cbn [str_compare] in H;
    try discriminate; [reflexivity |].
  destruct (x ?= y)%N eqn:Hxy; try discriminate.
  apply N.compare_eq in Hxy. subst y. f_equal. apply IH. exact H.
Qed.

Lemma str_compare_antisym (a : str) :
  forall b, str_compare b a = CompOpp (str_compare a b).
Proof.
  induction a as [| x a IH]; intros [| y b]; cbn [str_compare]; try reflexivity.
  rewrite (N.compare_antisym x y).
  destruct (x ?= y)%N; cbn [CompOpp]; [apply IH | reflexivity | reflexivity].
Qed.

Lemma str_compare_trans (a : str) :
  forall b c, str_compare a b = Lt -> str_compare b c = Lt -> str_compare a c = Lt.
Proof.
  induction a as [| x a IH]; intros [| y b] [| z c] H1 H2;
    cbn [str_compare] in *; try discriminate; try reflexivity.
  destruct (x ?= y)%N eqn:Hxy; try discriminate.
  - apply N.compare_eq in Hxy. subst y.
    destruct (x ?= z)%N; try discriminate; [eapply IH; eauto | reflexivity].
  - destruct (y ?= z)%N eqn:Hyz; try discriminate.
    + apply N.compare_eq in Hyz. subst z. rewrite Hxy. reflexivity.
    + assert (Hxz : (x ?= z)%N = Lt).
      { apply N.compare_lt_iff.
        apply N.lt_trans with y; apply N.compare_lt_iff; assumption. }
      rewrite Hxz. reflexivity.
Qed.

Lemma key_ltb_irrefl (a : str * nat) : key_ltb a a = false.
Proof.
  unfold key_ltb. rewrite str_compare_refl. apply Nat.ltb_irrefl.
Qed.

Lemma key_ltb_trans (a b c : str * nat) :
  key_ltb a b = true -> key_ltb b c = true -> key_ltb a c = true.
Proof.
  unfold key_ltb. destruct a as [fa na], b as [fb nb], c as [fc nc]. cbn [fst snd].
  destruct (str_compare fa fb) eqn:Hab; try discriminate;
    destruct (str_compare fb fc) eqn:Hbc; try discriminate; intros H1 H2.
  - apply str_compare_eq in Hab, Hbc. subst. rewrite str_compare_refl.
    apply Nat.ltb_lt in H1, H2. apply Nat.ltb_lt. lia.
  - apply str_compare_eq in Hab. subst. rewrite Hbc. reflexivity.
  - apply str_compare_eq in Hbc. subst. rewrite Hab. reflexivity.
  - rewrite (str_compare_trans _ _ _ Hab Hbc). reflexivity.
Qed.

Lemma key_ltb_total (a b : str * nat) :
  key_ltb a b = false -> key_ltb b a = false -> a = b.
Proof.
  unfold key_ltb. destruct a as [fa na], b as [fb nb]. cbn [fst snd].
  rewrite (str_compare_antisym fa fb).
  destruct (str_compare fa fb) eqn:Hab; cbn [CompOpp]; try discriminate.
  apply str_compare_eq in Hab. subst. intros H1 H2.
  apply Nat.ltb_ge in H1, H2. f_equal. lia.
Qed.

(** ** Occurrences in order *)

Lemma Before_In (A : Type) (a b : A) (l : list A) :
  Before a b l -> In a l /\ In b l.
Proof.
  intros [l1 [l2 [l3 ->]]]. split.
  - apply in_elt.
  - apply in_or_app. right. right. apply in_elt.
Qed.

Lemma Before_cons (A : Type) (a b c : A) (l : list A) :
  Before a b l -> Before a b (c :: l).
Proof.
  intros [l1 [l2 [l3 ->]]]. exists (c :: l1), l2, l3. reflexivity.
Qed.

Lemma Before_positions (A : Type) (l : list A) (p q : nat) (a b : A) :
  p < q -> nth_error l p = Some a -> nth_error l q = Some b -> Before a b l.
Proof.
  revert p q. induction l as [| c l IH]; intros p q Hpq Ha Hb.
  - destruct p; discriminate.
  - destruct q as [| q]; [lia |]. cbn [nth_error] in Hb.
    destruct p as [| p]; cbn [nth_error] in Ha.
    + injection Ha as <-. apply nth_error_In in Hb.
      apply in_split in Hb. destruct Hb as [l2 [l3 ->]].
      exists [], l2, l3. reflexivity.
    + apply Before_cons. apply (IH p q); [lia | assumption | assumption].
Qed.

Lemma Before_app (A : Type) (a b : A) (u v : list A) :
  Before a b (u ++ v) ->
  Before a b u \/ (In a u /\ In b v) \/ Before a b v.
Proof.
  induction u as [| c u IH]; intros H; [right; right; exact H |].
  destruct H as [[| d l1] [l2 [l3 H]]]; cbn [app] in H; injection H as <- H.
  - assert (Hb : In b (u ++ v)) by (rewrite H; apply in_elt).
    apply in_app_or in Hb. destruct Hb as [Hb | Hb].
    + left. apply in_split in Hb. destruct Hb as [m2 [m3 ->]].
      exists [], m2, m3. reflexivity.
    + right. left. split; [left; reflexivity | exact Hb].
  - destruct IH as [H1 | [[H1 H2] | H1]].
    + exists l1, l2, l3. exact H.
    + left. apply Before_cons. exact H1.
    + right. left. split; [right; exact H1 | exact H2].
    + right. right. exact H1.
Qed.

Lemma Before_flat_map (X A : Type) (h : X -> list A) (a b : A) (l : list X) :
  Before a b (flat_map h l) ->
  (exists x, In x l /\ Before a b (h x)) \/
  (exists i j x y,
     i < j /\ nth_error l i = Some x /\ nth_error l j = Some y /\
     In a (h x) /\ In b (h y)).
Proof.
  induction l as [| c l IH]; cbn [flat_map]; intros H.
  - destruct H as [[| d l1] [l2 [l3 H]]]; discriminate.
  - apply Before_app in H. destruct H as [H | [[Ha Hb] | H]].
    + left. exists c. split; [left; reflexivity | exact H].
    + right. apply in_flat_map in Hb. destruct Hb as [y [Hy Hb]].
      apply In_nth_error in Hy. destruct Hy as [j Hj].
      exists 0, (S j), c, y. repeat split; try assumption; lia.
    + destruct (IH H) as [[x [Hx Hx']] | [i [j [x [y [Hij [Hi [Hj [Ha Hb]]]]]]]]].
      * left. exists x. split; [right; exact Hx | exact Hx'].
      * right. exists (S i), (S j), x, y. repeat split; try assumption; lia.
Qed.

Lemma Before_filter (A : Type) (f : A -> bool) (a b : A) (l : list A) :
  Before a b l -> f a = true -> f b = true -> Before a b (filter f l).
Proof.
  intros [l1 [l2 [l3 ->]]] Ha Hb.
  exists (filter f l1), (filter f l2), (filter f l3).
  rewrite filter_app. cbn [filter]. rewrite Ha, filter_app. cbn [filter].
  rewrite Hb. reflexivity.
Qed.

Lemma filter_flat_map (X A : Type) (f : A -> bool) (h : X -> list A) (l : list X) :
  filter f (flat_map h l) = flat_map (fun x => filter f (h x)) l.
Proof.
  induction l as [| x l IH]; cbn [flat_map]; [reflexivity |].
  rewrite filter_app, IH. reflexivity.
Qed.

Lemma map_flat_map (X A B : Type) (g : A -> B) (h : X -> list A) (l : list X) :
  map g (flat_map h l) = flat_map (fun x => map g (h x)) l.
Proof.
  induction l as [| x l IH]; cbn [flat_map]; [reflexivity |].
  rewrite map_app, IH. reflexivity.
Qed.

(** Blocks of which at most one kind is not empty can be taken in any
    order. *)
Lemma flat_map_single_block (X A : Type) (h : X -> list A) (l l' : list X) :
  Permutation l l' ->
  (forall x y, h x <> [] -> h y <> [] -> x = y) ->
  flat_map h l = flat_map h l'.
Proof.
  intros Hp Hone. induction Hp as [| x l l' Hp IH | x y l | l l' l'' H1 IH1 H2 IH2].
  - reflexivity.
  - cbn [flat_map]. rewrite IH. reflexivity.
  - cbn [flat_map]. rewrite !app_assoc. f_equal.
    destruct (h x) as [| a u] eqn:Hx; [rewrite app_nil_r; reflexivity |].
    destruct (h y) as [| b v] eqn:Hy; [rewrite app_nil_r; reflexivity |].
    assert (x = y) by (apply Hone; congruence). subst y.
    rewrite Hx in Hy. injection Hy as <- <-. reflexivity.
  - congruence.
Qed.

(** Blocks that carry their index as a tag, without repetition inside a
    block, have no repetition together. *)
Lemma NoDup_flat_map_tagged (X A : Type) (tag : A -> X) (h : X -> list A)
    (l : list X) :
  NoDup l ->
  (forall x a, In a (h x) -> tag a = x) ->
  (forall x, In x l -> NoDup (h x)) ->
  NoDup (flat_map h l).
Proof.
  intros Hl Htag Hblock. induction Hl as [| x l Hx Hl IH]; cbn [flat_map].
  - constructor.
  - apply NoDup_app.
    + apply Hblock. left. reflexivity.
    + apply IH. intros y Hy. apply Hblock. right. exact Hy.
    + intros a Ha Ha'. apply in_flat_map in Ha'. destruct Ha' as [y [Hy Ha']].
      apply Htag in Ha, Ha'. subst. contradiction.
Qed.

(** ** Completion orders *)

Lemma as_completed_perm (running queued order : list str) :
  as_completed running queued order -> Permutation (running ++ queued) order.
Proof.
  induction 1 as [| r1 r2 queued order f _ IH]; [constructor |].
  rewrite <- app_assoc. cbn [app]. rewrite <- Permutation_middle.
  constructor. rewrite <- IH.
  rewrite <- !app_assoc, firstn_skipn. reflexivity.
Qed.

Lemma completion_order_perm (jobs : nat) (files completed : list str) :
  completion_order jobs files completed -> Permutation files completed.
Proof.
  intros H. apply as_completed_perm in H. rewrite firstn_skipn in H. exact H.
Qed.

(** A pool with at least one worker can complete the futures in the order
    of submission. *)
Lemma as_completed_in_order (n : nat) :
  forall running queued,
    length (running ++ queued) = n ->
    (running = [] -> queued = []) ->
    as_completed running queued (running ++ queued).
Proof.
  induction n as [| n IH]; intros running queued Hlen Hrun.
  - apply length_zero_iff_nil in Hlen. apply app_eq_nil in Hlen.
    destruct Hlen as [-> ->]. constructor.
  - destruct running as [| f r2].
    + rewrite (Hrun eq_refl) in Hlen. discriminate.
    + cbn [app]. apply (@as_completed_next [] r2 queued (r2 ++ queued) f). cbn [app].
      replace (r2 ++ queued) with ((r2 ++ firstn 1 queued) ++ skipn 1 queued)
        by (rewrite <- app_assoc, firstn_skipn; reflexivity).
      apply IH.
      * rewrite <- app_assoc, firstn_skipn. cbn [app length] in Hlen. lia.
      * intros H. apply app_eq_nil in H. destruct H as [_ H].
        destruct queued; [reflexivity | discriminate].
Qed.

Lemma completion_order_submission (jobs : nat) (files : list str) :
  1 <= jobs -> completion_order jobs files files.
Proof.
  intros Hj. unfold completion_order.
  rewrite <- (firstn_skipn jobs files) at 3.
  apply (@as_completed_in_order (length files)).
  - rewrite firstn_skipn. reflexivity.
  - intros H. destruct files as [| f l]; [destruct jobs; reflexivity |].
    destruct jobs; [lia | discriminate].
Qed.

(** ** The aggregated output of [main] *)

Section Aggregation.

Variables (W : World) (E : ReEngine) (terms : list str) (cs ww rx : bool).

Local Abbreviation result_of := (future_result W E terms cs ww rx).
Local Abbreviation keyed := (has_key sort_key_eq_dec sort_key).

Lemma term_records_In (lines : list str) (f t : str) (r : MatchRecord) :
  In r (term_records E lines f cs ww rx t) -> file r = f /\ term r = t.
Proof.
  unfold term_records.
  destruct (compiled_pattern E cs ww rx t) as [pat | e]; [| intros []].
  intros H. apply hits_In in H. destruct H as [j [line [_ [_ ->]]]].
  split; reflexivity.
Qed.

Lemma hits_triples_NoDup (pat : Pattern E) (lines : list str) (f t : str)
    (rest : list str) :
  forall i, NoDup (map triple (hits E pat lines f t i rest)).
Proof.
  induction rest as [| line rest IH]; intros i; cbn [hits]; [constructor |].
  rewrite map_app. apply NoDup_app.
  - destruct (Pattern_search E pat line); cbn [map]; repeat constructor. intros [].
  - apply IH.
  - intros x Hx Hx'. apply in_map_iff in Hx'. destruct Hx' as [r [<- Hr]].
    apply hits_In in Hr. destruct Hr as [j [l [_ [_ ->]]]].
    destruct (Pattern_search E pat line); cbn [map In] in Hx; [| exact Hx].
    destruct Hx as [Hx | []]. unfold triple, record_at in Hx.
    cbn [file term line_number] in Hx. injection Hx as Hx. lia.
Qed.

Lemma term_records_NoDup (lines : list str) (f t : str) :
  NoDup (map triple (term_records E lines f cs ww rx t)).
Proof.
  unfold term_records.
  destruct (compiled_pattern E cs ww rx t); [apply hits_triples_NoDup | constructor].
Qed.

(** What a future contributes: nothing, or the records of the terms in
    the order of the terms. *)
Lemma future_result_blocks (f : str) :
  result_of f = [] \/
  exists lines, result_of f = flat_map (term_records E lines f cs ww rx) terms.
Proof.
  unfold future_result.
  destruct (fst (search_file W E f terms cs ww rx)) as [rs | e] eqn:H;
    [| left; reflexivity].
  apply search_file_Ret in H.
  destruct H as [text [_ [[_ ->] | [_ [_ ->]]]]]; [left; reflexivity |].
  right. eexists. reflexivity.
Qed.

Lemma future_result_In (f : str) (r : MatchRecord) :
  In r (result_of f) -> file r = f /\ In (term r) terms.
Proof.
  destruct (future_result_blocks f) as [-> | [lines ->]]; [intros [] |].
  intros H. apply in_flat_map in H. destruct H as [t [Ht Hr]].
  apply term_records_In in Hr. destruct Hr as [-> <-]. split; [reflexivity | exact Ht].
Qed.

Lemma main_results_sorted (completed : list str) :
  StronglySorted (key_le key_ltb sort_key)
    (main_results W E terms cs ww rx completed).
Proof.
  apply list_sort_sorted;
    [apply key_ltb_irrefl | apply key_ltb_trans | apply key_ltb_total].
Qed.

Lemma main_results_perm (completed : list str) :
  Permutation (main_results W E terms cs ww rx completed)
              (all_results W E terms cs ww rx completed).
Proof. apply list_sort_perm. Qed.

Lemma main_results_stable (k : str * nat) (completed : list str) :
  filter (keyed k) (main_results W E terms cs ww rx completed)
  = flat_map (fun f => filter (keyed k) (result_of f)) completed.
Proof.
  unfold main_results. rewrite list_sort_stable by apply key_ltb_irrefl.
  unfold all_results. apply filter_flat_map.
Qed.

Lemma keyed_block_file (k : str * nat) (f : str) :
  filter (keyed k) (result_of f) <> [] -> f = fst k.
Proof.
  destruct (filter (keyed k) (result_of f)) as [| r l] eqn:H; [congruence |].
  intros _. assert (Hr : In r (filter (keyed k) (result_of f)))
    by (rewrite H; left; reflexivity).
  apply filter_In in Hr. destruct Hr as [Hr Hk].
  apply keyed_eq in Hk. apply future_result_In in Hr. destruct Hr as [<- _].
  rewrite <- Hk. reflexivity.
Qed.

(** C3.  The sorted output does not depend on the job count or on the
    order in which the futures complete: for every permutation
    [completed] of the submitted files, and so for every completion order
    of a pool of any number of workers, sorting what was collected gives
    the list obtained in submission order. *)
Theorem main_results_deterministic (files completed : list str) :
  Permutation files completed \/ (exists jobs, completion_order jobs files completed) ->
  main_results W E terms cs ww rx completed
  = main_results W E terms cs ww rx files.
Proof.
  intros H.
  assert (Hp : Permutation files completed).
  { destruct H as [H | [jobs H]]; [exact H |]. apply (completion_order_perm H). }
  apply stable_sorted_unique with (ltb := key_ltb) (key := sort_key)
                                  (K_eq_dec := sort_key_eq_dec).
  - apply key_ltb_total.
  - apply main_results_sorted.
  - apply main_results_sorted.
  - intros k. rewrite !main_results_stable.
    apply flat_map_single_block; [symmetry; exact Hp |].
    intros x y Hx Hy. apply keyed_block_file in Hx, Hy. congruence.
Qed.

(** C2 (amended).  In the output a record of a lexicographically smaller
    file stands before a record of a larger one, and within one file a
    record of a smaller line number stands before one of a larger; when
    no path occurs twice in the file list, two records of the same file
    and line with different terms stand in the order in which their
    terms were submitted. *)
Theorem main_results_order (files completed : list str) (p q : nat)
    (a b : MatchRecord) :
  Permutation files completed ->
  nth_error (main_results W E terms cs ww rx completed) p = Some a ->
  nth_error (main_results W E terms cs ww rx completed) q = Some b ->
  (str_lt (file a) (file b) -> p < q) /\
  (file a = file b -> line_number a < line_number b -> p < q) /\
  (NoDup files -> file a = file b -> line_number a = line_number b ->
   term a <> term b -> p < q ->
   exists i j,
     i < j /\ nth_error terms i = Some (term a) /\ nth_error terms j = Some (term b)).
Proof.
  intros Hp Ha Hb.
  assert (Hlt : key_ltb (sort_key a) (sort_key b) = true -> p < q).
  { intros Hk. destruct (Nat.lt_trichotomy p q) as [H | [H | H]]; [exact H | |].
    - subst q. rewrite Ha in Hb. injection Hb as <-.
      rewrite key_ltb_irrefl in Hk. discriminate.
    - pose proof (sorted_positions (main_results_sorted completed) H Hb Ha) as Hle.
      unfold key_le in Hle. congruence. }
  split; [| split].
  - intros H. apply Hlt. unfold key_ltb, sort_key. cbn [fst snd].
    unfold str_lt in H. rewrite H. reflexivity.
  - intros Hf Hl. apply Hlt. unfold key_ltb, sort_key. cbn [fst snd].
    rewrite Hf, str_compare_refl. apply Nat.ltb_lt. exact Hl.
  - intros Hnd Hf Hl Ht Hpq.
    assert (Hnd' : NoDup completed) by (eapply Permutation_NoDup; eauto).
    pose proof (Before_positions _ Hpq Ha Hb) as Hbef.
    apply (Before_filter (keyed (sort_key a))) in Hbef;
      [| apply keyed_self
       | unfold has_key, sort_key;
         destruct (sort_key_eq_dec (file b, line_number b) (file a, line_number a));
         congruence].
    rewrite main_results_stable in Hbef.
    apply Before_flat_map in Hbef.
    destruct Hbef as [[f [_ Hblock]] | [i [j [x [y [Hij [Hi [Hj [Hx Hy]]]]]]]]].
    + destruct (future_result_blocks f) as [Hnil | [lines Hfl]];
        rewrite ?Hnil, ?Hfl in Hblock.
      * destruct Hblock as [[| ? ?] [? [? ?]]]; discriminate.
      * rewrite filter_flat_map in Hblock. apply Before_flat_map in Hblock.
        destruct Hblock as [[t [_ Hin]] | [i [j [x [y [Hij [Hi [Hj [Hx Hy]]]]]]]]].
        -- apply Before_In in Hin. destruct Hin as [H1 H2].
           apply filter_In in H1, H2. destruct H1 as [H1 _], H2 as [H2 _].
           apply term_records_In in H1, H2. destruct H1 as [_ H1], H2 as [_ H2].
           congruence.
        -- apply filter_In in Hx, Hy. destruct Hx as [Hx _], Hy as [Hy _].
           apply term_records_In in Hx, Hy. destruct Hx as [_ <-], Hy as [_ <-].
           exists i, j. repeat split; assumption.
    + apply filter_In in Hx, Hy. destruct Hx as [Hx _], Hy as [Hy _].
      apply future_result_In in Hx, Hy. destruct Hx as [Hx _], Hy as [Hy _].
      assert (i = j).
      { apply (proj1 (NoDup_nth_error completed) Hnd').
        - apply nth_error_Some. congruence.
        - congruence. }
      lia.
Qed.

(** C8 (amended).  When no term occurs twice in the term list and no
    path occurs twice in the file list, every (file, term, line) triple
    occurs at most once in the output. *)
Theorem main_results_triples_unique (files completed : list str) :
  Permutation files completed ->
  NoDup files ->
  NoDup terms ->
  NoDup (map triple (main_results W E terms cs ww rx completed)).
Proof.
  intros Hp Hfiles Hterms.
  apply (Permutation_NoDup
           (Permutation_map triple (Permutation_sym (main_results_perm completed)))).
  unfold all_results. rewrite map_flat_map.
  apply NoDup_flat_map_tagged with (tag := fun x : str * str * nat => fst (fst x)).
  - eapply Permutation_NoDup; eauto.
  - intros f x Hx. apply in_map_iff in Hx. destruct Hx as [r [<- Hr]].
    apply future_result_In in Hr. destruct Hr as [Hr _]. exact Hr.
  - intros f _. destruct (future_result_blocks f) as [-> | [lines ->]];
      [constructor |].
    rewrite map_flat_map.
    apply NoDup_flat_map_tagged with (tag := fun x : str * str * nat => snd (fst x)).
    + exact Hterms.
    + intros t x Hx. apply in_map_iff in Hx. destruct Hx as [r [<- Hr]].
      apply term_records_In in Hr. destruct Hr as [_ Hr]. exact Hr.
    + intros t _. apply term_records_NoDup.
Qed.

End Aggregation.

(** ** Runs on sample directories *)

Lemma two_files_NoDup : NoDup [a_docx; c_docx].
Proof.
  constructor; [intros [H | []]; discriminate H |].
  constructor; [intros [] | constructor].
Qed.

Lemma two_terms_NoDup : NoDup [lit "x"; lit "y"].
Proof.
  constructor; [intros [H | []]; discriminate H |].
  constructor; [intros [] | constructor].
Qed.

Lemma main_results_deterministic_witness :
  completion_order 2 [a_docx; c_docx] [c_docx; a_docx] /\
  completion_order 1 [a_docx; c_docx] [a_docx; c_docx] /\
  main_results (docx_dir [(a_docx, lit "x y"); (c_docx, lit "y")]) LitRe.engine
    [lit "x"; lit "y"] false false false [c_docx; a_docx]
  = main_results (docx_dir [(a_docx, lit "x y"); (c_docx, lit "y")]) LitRe.engine
      [lit "x"; lit "y"] false false false [a_docx; c_docx].
Proof.
  assert (H2 : completion_order 2 [a_docx; c_docx] [c_docx; a_docx]).
  { apply (@as_completed_next [a_docx] [] [] [a_docx] c_docx).
    apply (@as_completed_next [] [] [] [] a_docx).
    constructor. }
  split; [exact H2 |].
  split; [apply completion_order_submission; lia |].
  apply (@main_results_deterministic
           (docx_dir [(a_docx, lit "x y"); (c_docx, lit "y")]) LitRe.engine
           [lit "x"; lit "y"] false false false [a_docx; c_docx] [c_docx; a_docx]).
  right. exists 2. exact H2.
Defined.

Lemma main_results_order_witness :
  exists i j,
    i < j /\
    nth_error [lit "x"; lit "y"] i = Some (lit "x") /\
    nth_error [lit "x"; lit "y"] j = Some (lit "y").
Proof.
  destruct (@main_results_order
              (docx_dir [(a_docx, lit "x y"); (c_docx, lit "y")]) LitRe.engine
              [lit "x"; lit "y"] false false false [a_docx; c_docx] [c_docx; a_docx]
              0 1
              (record_at [lit "x y"] a_docx (lit "x") 0)
              (record_at [lit "x y"] a_docx (lit "y") 0)
              (perm_swap c_docx a_docx []) eq_refl eq_refl) as [_ [_ H]].
  apply H.
  - exact two_files_NoDup.
  - reflexivity.
  - reflexivity.
  - discriminate.
  - lia.
Defined.

(** C2, as stated, fails when a path occurs twice in the file list, which
    two extensions naming the same suffix produce: the records of the
    second search of the file follow those of the first, so a record of
    the later term [b] stands before a record of the earlier term [a] of
    the same file and line. *)
Lemma repeated_path_breaks_term_order :
  let W := docx_dir [(a_docx, lit "a b")] in
  let terms := [lit "a"; lit "b"] in
  let files := find_files W (lit "dir") [lit "docx"; lit ".docx"] in
  let out := main_results W LitRe.engine terms false false false files in
  files = [a_docx; a_docx] /\
  exists rb ra,
    nth_error out 1 = Some rb /\ nth_error out 2 = Some ra /\
    file rb = file ra /\ line_number rb = line_number ra /\
    term rb = lit "b" /\ term ra = lit "a" /\ term rb <> term ra /\
    ~ (exists i j,
         i < j /\ nth_error terms i = Some (term rb) /\
         nth_error terms j = Some (term ra)).
Proof.
  cbv zeta. split; [vm_compute; reflexivity |].
  eexists. eexists.
  split; [vm_compute; reflexivity |].
  split; [vm_compute; reflexivity |].
  repeat (split; [vm_compute; try reflexivity; discriminate |]).
  intros [i [j [Hij [Hi Hj]]]].
  destruct j as [| j]; [lia |].
  destruct j as [| j]; [vm_compute in Hj; discriminate Hj |].
  destruct j; discriminate Hj.
Qed.

Lemma main_results_triples_unique_witness :
  NoDup (map triple
           (main_results (docx_dir [(a_docx, lit "x y"); (c_docx, lit "y")])
              LitRe.engine [lit "x"; lit "y"] false false false [c_docx; a_docx])).
Proof.
  apply (@main_results_triples_unique
           (docx_dir [(a_docx, lit "x y"); (c_docx, lit "y")]) LitRe.engine
           [lit "x"; lit "y"] false false false [a_docx; c_docx] [c_docx; a_docx]).
  - apply perm_swap.
  - exact two_files_NoDup.
  - exact two_terms_NoDup.
Defined.

(** C8, as stated, fails when a term is given twice: each copy of the
    term yields its own record for the same line of the same file. *)
Lemma repeated_term_repeats_triple :
  let W := docx_dir [(a_docx, lit "a")] in
  let files := find_files W (lit "dir") [lit "docx"] in
  files = [a_docx] /\
  map triple (main_results W LitRe.engine [lit "a"; lit "a"] false false false files)
  = [(a_docx, lit "a", 1); (a_docx, lit "a", 1)] /\
  ~ NoDup (map triple
             (main_results W LitRe.engine [lit "a"; lit "a"] false false false files)).
Proof.
  cbv zeta. split; [vm_compute; reflexivity |].
  split; [vm_compute; reflexivity |].
  intros H. vm_compute in H. inversion H as [| x l Hn _]. apply Hn. left. reflexivity.
Qed.

(* ================================================================== *)
(** * Part III: further properties of the script                       *)
(* ================================================================== *)

(** ** The decoder of [extract_text_from_doc] *)

Lemma pairs_decode_app (a b : list byte) :
  Nat.Even (length a) -> pairs_decode (a ++ b) = pairs_decode a ++ pairs_decode b.
Proof.
  induction a as [| x | x y a IH] using list_pair_ind; intros Hev.
  - reflexivity.
  - destruct Hev as [k Hk]. cbn [length] in Hk. lia.
  - cbn [app pairs_decode]. rewrite IH, app_assoc; [reflexivity |].
    destruct Hev as [k Hk]. cbn [length] in Hk. exists (k - 1). lia.
Qed.

(** X1.  The decoder works pair by pair: on an even-length prefix
    followed by more bytes it gives the decoding of the prefix followed by
    the decoding of the rest, and a single byte left over at the end is
    ignored. *)
Theorem doc_decode_app (a b : list byte) (x : byte) :
  Nat.Even (length a) ->
  doc_decode (a ++ b) = doc_decode a ++ doc_decode b /\
  doc_decode (a ++ [x]) = doc_decode a.
Proof.
  intros Hev. rewrite !doc_decode_pairs, !pairs_decode_app by exact Hev.
  split; [reflexivity |]. cbn [pairs_decode]. apply app_nil_r.
Qed.

Lemma doc_decode_app_witness :
  doc_decode ([x41; x00] ++ [x42; x00; x43]) = doc_decode [x41; x00] ++ doc_decode [x42; x00; x43] /\
  doc_decode ([x41; x00] ++ [x43]) = doc_decode [x41; x00].
Proof.
  apply (@doc_decode_app [x41; x00] [x42; x00; x43] x43). exists 1. reflexivity.
Defined.

Lemma pairs_decode_utf16le (s : list byte) :
  pairs_decode (utf16le_latin1 s) = filter kept_chr (map Byte.to_N s).
Proof.
  induction s as [| b s IH]; [reflexivity |].
  cbn [utf16le_latin1 flat_map app pairs_decode map filter].
  fold (utf16le_latin1 s). rewrite IH.
  change (Byte.to_N x00 =? 0)%N with true. unfold kept_chr.
  destruct (isprintable_latin1 (Byte.to_N b) || isspace (Byte.to_N b)); reflexivity.
Qed.

(** X2.  Text of characters below 256 written as UTF-16LE is read back by
    the decoder with the characters that are neither printable nor
    whitespace removed; text made only of printable or whitespace
    characters is read back unchanged. *)
Theorem doc_decode_utf16le (s : list byte) :
  doc_decode (utf16le_latin1 s) = filter kept_chr (map Byte.to_N s) /\
  (Forall (fun b => kept_chr (Byte.to_N b) = true) s ->
   doc_decode (utf16le_latin1 s) = map Byte.to_N s).
Proof.
  rewrite doc_decode_pairs, pairs_decode_utf16le. split; [reflexivity |].
  intros Hall. induction Hall as [| b s Hb _ IH]; [reflexivity |].
  cbn [map filter]. rewrite Hb, IH. reflexivity.
Qed.

Lemma doc_decode_utf16le_witness :
  doc_decode (utf16le_latin1 [x48; x69; x20; x21]) = [72; 105; 32; 33]%N.
Proof.
  apply (proj2 (doc_decode_utf16le [x48; x69; x20; x21])).
  repeat constructor.
Defined.

(** X3.  The decoder returns at most one character for every two bytes,
    and every character it returns is below 256 and printable or
    whitespace. *)
Theorem doc_decode_bounds (content : list byte) :
  2 * length (doc_decode content) <= length content /\
  Forall (fun c => (c < 256)%N /\ kept_chr c = true) (doc_decode content).
Proof.
  rewrite doc_decode_pairs.
  induction content as [| x | x y content [IH1 IH2]] using list_pair_ind.
  - split; [cbn; lia | constructor].
  - split; [cbn; lia | constructor].
  - cbn [pairs_decode]. unfold kept_chr in *.
    destruct (Byte.to_N y =? 0)%N;
      [destruct (isprintable_latin1 (Byte.to_N x) || isspace (Byte.to_N x)) eqn:Hk |];
      cbn [app length]; (split; [lia |]); try exact IH2.
    constructor; [| exact IH2].
    split; [pose proof (Byte.to_N_bounded x); lia | exact Hk].
Qed.

(** ** Compound files and PDF files *)

(** X4.  A compound file that has no [WordDocument] stream gives the
    empty text, and nothing is printed on standard error. *)
Theorem doc_without_stream_is_empty (W : World) (p : str) (ole : OleFile) :
  olefile_isOleFile W p = Ret true ->
  olefile_OleFileIO W p = Ret ole ->
  ole_exists_WordDocument ole = Ret false ->
  extract_text_from_doc W p = (Ret [], []).
Proof.
  intros Ho Hf Hs. unfold extract_text_from_doc.
  rewrite Ho, bind_call_Ret. cbn [negb]. rewrite Hf, bind_call_Ret, Hs, bind_call_Ret.
  reflexivity.
Qed.

Lemma pdf_pages_loop_all (texts : list str) :
  forall text,
    pdf_pages_loop (map Ret texts) text
    = (Ret (text ++ flat_map (fun t => t ++ [10%N]) texts), []).
Proof.
  induction texts as [| t texts IH]; intros text; cbn [map pdf_pages_loop flat_map].
  - rewrite app_nil_r. reflexivity.
  - rewrite bind_call_Ret, IH, <- !app_assoc. reflexivity.
Qed.

Lemma pdf_pages_loop_first_raise (texts : list str) (e : exn)
    (rest : list (outcome str)) :
  forall text,
    pdf_pages_loop (map Ret texts ++ Raise e :: rest) text = (Raise e, []).
Proof.
  induction texts as [| t texts IH]; intros text; cbn [map app pdf_pages_loop].
  - reflexivity.
  - rewrite bind_call_Ret. apply IH.
Qed.

(** X5.  When every page of a PDF file is extracted, the text of the file
    is the text of each page followed by a newline, in page order; a page
    without text contributes the newline alone. *)
Theorem pdf_text_is_pages_with_newlines (W : World) (p : str) (texts : list str) :
  PdfReader_pages W p = Ret (map Ret texts) ->
  extract_text_from_pdf W p
  = (Ret (flat_map (fun t => t ++ [10%N]) texts), []).
Proof.
  intros Hp. unfold extract_text_from_pdf.
  rewrite Hp, bind_call_Ret, pdf_pages_loop_all. reflexivity.
Qed.

(** X6.  When the extraction of a page raises, the text of the pages
    before it is dropped: the text of the file is empty, and the
    diagnostic carries the exception of the first page that raised. *)
Theorem pdf_failing_page_drops_text (W : World) (p : str) (texts : list str)
    (e : exn) (rest : list (outcome str)) :
  PdfReader_pages W p = Ret (map Ret texts ++ Raise e :: rest) ->
  extract_text_from_pdf W p = (Ret [], [ErrorPdf p e]).
Proof.
  intros Hp. unfold extract_text_from_pdf.
  rewrite Hp, bind_call_Ret, pdf_pages_loop_first_raise. reflexivity.
Qed.

Lemma doc_without_stream_is_empty_witness :
  extract_text_from_doc (ole_world b_doc) b_doc = (Ret [], []).
Proof.
  apply (@doc_without_stream_is_empty (ole_world b_doc) b_doc
           {| ole_exists_WordDocument := Ret false;
              ole_read_WordDocument := Raise no_such_file |});
    reflexivity.
Defined.

Lemma pdf_text_is_pages_with_newlines_witness :
  extract_text_from_pdf (pdf_world d_pdf [Ret (lit "one"); Ret []; Ret (lit "three")]) d_pdf
  = (Ret (lit "one" ++ nl ++ nl ++ lit "three" ++ nl), []).
Proof.
  apply (@pdf_text_is_pages_with_newlines
           (pdf_world d_pdf [Ret (lit "one"); Ret []; Ret (lit "three")]) d_pdf
           [lit "one"; []; lit "three"]).
  reflexivity.
Defined.

Lemma pdf_failing_page_drops_text_witness :
  extract_text_from_pdf
    (pdf_world d_pdf [Ret (lit "one"); Raise no_such_file; Ret (lit "three")]) d_pdf
  = (Ret [], [ErrorPdf d_pdf no_such_file]).
Proof.
  apply (@pdf_failing_page_drops_text
           (pdf_world d_pdf [Ret (lit "one"); Raise no_such_file; Ret (lit "three")]) d_pdf
           [lit "one"] no_such_file [Ret (lit "three")]).
  reflexivity.
Defined.

(** ** Further properties of [search_file] *)

(** X7.  A file whose extracted text is empty gives no record, and no
    term is compiled for it: [search_file] returns the empty list with the
    diagnostics of the extraction alone, whatever the terms and the mode,
    also for a term that [re.compile] would refuse. *)
Theorem search_file_empty_text (W : World) (E : ReEngine) (file_path : str)
    (terms : list str) (cs ww rx : bool) :
  fst (extract_text W file_path) = Ret [] ->
  search_file W E file_path terms cs ww rx = (Ret [], snd (extract_text W file_path)).
Proof.
  intros Ht. rewrite (@search_file_stages W E file_path terms cs ww rx [] Ht).
  reflexivity.
Qed.

Lemma search_file_empty_text_witness :
  search_file (docx_world a_docx (lit "hello")) LitRe.engine (lit "gone.docx")
    [lit "("] false true false
  = (Ret [], [ErrorDocx (lit "gone.docx") no_such_file]).
Proof.
  apply (@search_file_empty_text (docx_world a_docx (lit "hello")) LitRe.engine
           (lit "gone.docx") [lit "("] false true false).
  reflexivity.
Defined.

(** X8.  The records of a list of terms are those of its parts, one after
    the other: when [search_file] returns for [ts1] and for [ts2], it
    returns for [ts1 ++ ts2] with the records for [ts1] followed by the
    records for [ts2]. *)
Theorem search_file_terms_app (W : World) (E : ReEngine) (file_path : str)
    (ts1 ts2 : list str) (cs ww rx : bool) (rs1 rs2 : list MatchRecord) :
  fst (search_file W E file_path ts1 cs ww rx) = Ret rs1 ->
  fst (search_file W E file_path ts2 cs ww rx) = Ret rs2 ->
  fst (search_file W E file_path (ts1 ++ ts2) cs ww rx) = Ret (rs1 ++ rs2).
Proof.
  intros H1 H2.
  destruct (search_file_Ret _ _ _ _ _ _ _ H1) as [text [Ht C1]].
  destruct (search_file_Ret _ _ _ _ _ _ _ H2) as [text' [Ht' C2]].
  assert (text' = text) by congruence. subst text'.
  destruct C1 as [[He ->] | [Hne [A1 ->]]].
  - destruct C2 as [[_ ->] | [Hne _]]; [| congruence]. subst text.
    rewrite (@search_file_stages W E file_path (ts1 ++ ts2) cs ww rx [] Ht).
    reflexivity.
  - destruct C2 as [[He _] | [_ [A2 ->]]]; [congruence |].
    rewrite (@search_file_accepted W E file_path (ts1 ++ ts2) cs ww rx text Ht Hne).
    + rewrite flat_map_app. reflexivity.
    + apply Forall_app. split; assumption.
Qed.

Lemma search_file_terms_app_witness :
  fst (search_file (docx_world a_docx (lit "x y")) LitRe.engine a_docx
         ([lit "y"] ++ [lit "x"]) false false false)
  = Ret ([record_at [lit "x y"] a_docx (lit "y") 0]
         ++ [record_at [lit "x y"] a_docx (lit "x") 0]).
Proof.
  apply (@search_file_terms_app (docx_world a_docx (lit "x y")) LitRe.engine a_docx
           [lit "y"] [lit "x"] false false false);
    reflexivity.
Defined.

Lemma hits_lines_increase (E : ReEngine) (pat : Pattern E) (lines : list str)
    (f t : str) (rest : list str) :
  forall i,
    StronglySorted lt (map line_number (hits E pat lines f t i rest)) /\
    Forall (fun r => i < line_number r /\ line_number r <= i + length rest)
           (hits E pat lines f t i rest).
Proof.
  induction rest as [| line rest IH]; intros i; cbn [hits].
  - split; constructor.
  - destruct (IH (S i)) as [Hs Hall].
    assert (Hall' : Forall (fun r => i < line_number r /\
                                     line_number r <= i + length (line :: rest))
                           (hits E pat lines f t (S i) rest)).
    { eapply Forall_impl; [| exact Hall]. cbn [length]. intros r [? ?]. lia. }
    destruct (Pattern_search E pat line); cbn [app map]; [| split; assumption].
    split.
    + constructor; [exact Hs |]. apply Forall_map.
      eapply Forall_impl; [| exact Hall]. cbn [record_at line_number].
      intros r [? ?]. lia.
    + constructor; [| exact Hall'].
      cbn [record_at line_number length]. lia.
Qed.

(** X9.  The records [search_file] returns are grouped by term, in the
    order in which the terms were given, and within the group of a term
    the line numbers increase strictly: the result is the concatenation of
    one block per term, every record of a block carrying that term. *)
Theorem search_file_order (W : World) (E : ReEngine) (file_path : str)
    (terms : list str) (cs ww rx : bool) (rs : list MatchRecord) :
  fst (search_file W E file_path terms cs ww rx) = Ret rs ->
  rs = [] \/
  exists blocks,
    rs = concat blocks /\
    Forall2 (fun t block =>
               Forall (fun r => term r = t) block /\
               StronglySorted lt (map line_number block))
            terms blocks.
Proof.
  intros H. destruct (search_file_Ret _ _ _ _ _ _ _ H) as [text [_ [[_ ->] | [_ [_ ->]]]]];
    [left; reflexivity | right].
  exists (map (term_records E (splitlines text) file_path cs ww rx) terms). split.
  - apply flat_map_concat_map.
  - clear H. induction terms as [| t terms IH]; cbn [map]; constructor; [| exact IH].
    split.
    + apply Forall_forall. intros r Hr.
      apply (@term_records_In E cs ww rx (splitlines text) file_path t r) in Hr.
      apply Hr.
    + unfold term_records.
      destruct (compiled_pattern E cs ww rx t); [| constructor].
      apply hits_lines_increase.
Qed.

Lemma search_file_order_witness :
  exists blocks,
    [record_at [lit "x y"; lit "y"] a_docx (lit "y") 0;
     record_at [lit "x y"; lit "y"] a_docx (lit "y") 1;
     record_at [lit "x y"; lit "y"] a_docx (lit "x") 0] = concat blocks /\
    Forall2 (fun t block =>
               Forall (fun r => term r = t) block /\
               StronglySorted lt (map line_number block))
            [lit "y"; lit "x"] blocks.
Proof.
  destruct (@search_file_order (docx_world a_docx (lit "x y" ++ nl ++ lit "y"))
              LitRe.engine a_docx [lit "y"; lit "x"] false false false
              [record_at [lit "x y"; lit "y"] a_docx (lit "y") 0;
               record_at [lit "x y"; lit "y"] a_docx (lit "y") 1;
               record_at [lit "x y"; lit "y"] a_docx (lit "x") 0]
              eq_refl) as [H | H].
  - discriminate H.
  - exact H.
Defined.

Lemma hits_length (E : ReEngine) (pat : Pattern E) (lines : list str)
    (f t : str) (rest : list str) :
  forall i, length (hits E pat lines f t i rest) <= length rest.
Proof.
  induction rest as [| line rest IH]; intros i; cbn [hits length]; [lia |].
  rewrite length_app. specialize (IH (S i)).
  destruct (Pattern_search E pat line); cbn [length]; lia.
Qed.

(** X10.  [search_file] returns at most one record per term and line: the
    number of records is at most the number of terms times the number of
    lines of the extracted text. *)
Theorem search_file_count (W : World) (E : ReEngine) (file_path : str)
    (terms : list str) (cs ww rx : bool) (rs : list MatchRecord) (text : str) :
  fst (search_file W E file_path terms cs ww rx) = Ret rs ->
  fst (extract_text W file_path) = Ret text ->
  length rs <= length terms * length (splitlines text).
Proof.
  intros H Ht.
  destruct (search_file_Ret _ _ _ _ _ _ _ H) as [text' [Ht' C]].
  assert (text' = text) by congruence. subst text'.
  destruct C as [[_ ->] | [_ [_ ->]]]; [cbn; lia |].
  clear H. induction terms as [| t terms IH]; cbn [flat_map length]; [lia |].
  rewrite length_app. unfold term_records at 1.
  destruct (compiled_pattern E cs ww rx t) as [pat | e].
  - pose proof (@hits_length E pat (splitlines text) file_path t (splitlines text) 0).
    cbn [Nat.mul]. lia.
  - cbn [length Nat.mul]. lia.
Qed.

Lemma search_file_count_witness :
  length [record_at [lit "x y"] a_docx (lit "y") 0] <= 2 * length (splitlines (lit "x y")).
Proof.
  apply (@search_file_count (docx_world a_docx (lit "x y")) LitRe.engine a_docx
           [lit "y"; lit "z"] false false false
           [record_at [lit "x y"] a_docx (lit "y") 0] (lit "x y"));
    reflexivity.
Defined.

Lemma skipn_length_app (A : Type) (a b : list A) (k : nat) :
  skipn k b = skipn (k + length a) (a ++ b).
Proof.
  induction a as [| x a IH]; cbn [length app].
  - rewrite Nat.add_0_r. reflexivity.
  - rewrite Nat.add_succ_r. cbn [skipn]. exact IH.
Qed.

(** X11.  The lines of the context of a hit at index [i] are the line
    before it when [i > 0], the matched line, and the line after it when
    there is one: between one and three lines, the matched line among
    them. *)
Theorem context_range_shape (lines : list str) (i : nat) (line : str) :
  nth_error lines i = Some line ->
  let range := slice lines (Z.to_nat (Z.max 0 (Z.of_nat i - 1)))
                           (Nat.min (length lines) (i + 2)) in
  range = match i with
          | 0 => []
          | S j => firstn 1 (skipn j lines)
          end ++ line :: firstn 1 (skipn (S i) lines) /\
  1 <= length range <= 3 /\
  context_at lines i = strip (join [10%N] range).
Proof.
  intros Hn range.
  assert (Hshape : range = match i with
                           | 0 => []
                           | S j => firstn 1 (skipn j lines)
                           end ++ line :: firstn 1 (skipn (S i) lines)).
  { subst range. unfold slice.
    destruct (nth_error_split _ _ Hn) as [l1 [l2 [-> Hlen]]].
    assert (Hl2 : firstn (Nat.min (length l2) 1) l2 = firstn 1 l2)
      by (destruct l2 as [| a [| b l2]]; reflexivity).
    destruct i as [| j].
    - apply length_zero_iff_nil in Hlen. subst l1. cbn [app length skipn].
      replace (Z.to_nat (Z.max 0 (Z.of_nat 0 - 1))) with 0 by lia.
      cbn [skipn]. replace (Nat.min (S (length l2)) (0 + 2) - 0)
        with (S (Nat.min (length l2) 1)) by lia.
      cbn [firstn]. f_equal. exact Hl2.
    - destruct (exists_last (l := l1)) as [l1' [x ->]];
        [intros ->; discriminate |].
      rewrite length_app in Hlen. cbn [length] in Hlen.
      assert (Hj : length l1' = j) by lia.
      replace (Z.to_nat (Z.max 0 (Z.of_nat (S j) - 1))) with j by lia.
      rewrite <- !app_assoc. cbn [app].
      replace (skipn j (l1' ++ x :: line :: l2)) with (x :: line :: l2)
        by (subst j; exact (skipn_length_app l1' (x :: line :: l2) 0)).
      replace (skipn (S (S j)) (l1' ++ x :: line :: l2)) with l2
        by (subst j; exact (skipn_length_app l1' (x :: line :: l2) 2)).
      rewrite length_app. cbn [length].
      replace (Nat.min (length l1' + S (S (length l2))) (S j + 2) - j)
        with (S (S (Nat.min (length l2) 1))) by lia.
      cbn [firstn app]. do 2 f_equal. exact Hl2. }
  split; [exact Hshape |]. split; [| reflexivity].
  rewrite Hshape, length_app. cbn [length].
  pose proof (firstn_le_length 1 (skipn (S i) lines)).
  destruct i as [| j]; cbn [length]; [lia |].
  pose proof (firstn_le_length 1 (skipn j lines)). lia.
Qed.

Lemma context_range_shape_witness :
  slice [lit "a"; lit "b"; lit "c"; lit "d"] 1 4 = [lit "b"] ++ lit "c" :: [lit "d"].
Proof.
  apply (@context_range_shape [lit "a"; lit "b"; lit "c"; lit "d"] 2 (lit "c")).
  reflexivity.
Defined.

(** ** [find_files] *)

Lemma with_dot_idempotent (ext : str) : with_dot (with_dot ext) = with_dot ext.
Proof.
  unfold with_dot. destruct (startswith ext (lit ".")) eqn:H; [rewrite H; reflexivity |].
  replace (startswith (lit "." ++ ext) (lit ".")) with true; [reflexivity |].
  destruct ext; reflexivity.
Qed.

Lemma find_files_patterns (W : World) (directory : str) (extensions : list str) :
  find_files W directory extensions
  = flat_map (fun ext => rglob W directory (lit "*" ++ with_dot ext)) extensions.
Proof.
  unfold find_files. apply flat_map_ext. intros ext.
  unfold with_dot. destruct (startswith ext (lit ".")); reflexivity.
Qed.

Lemma find_files_with_dot (W : World) (directory : str) (extensions : list str) :
  find_files W directory (map with_dot extensions) = find_files W directory extensions.
Proof.
  rewrite !find_files_patterns.
  induction extensions as [| ext rest IH]; [reflexivity |].
  cbn [map flat_map]. rewrite IH, with_dot_idempotent. reflexivity.
Qed.

(** X12.  An extension finds the same files with and without its leading
    dot, and [find_files] removes no repetition: an extension given both
    ways, or given twice, yields every file it finds twice. *)
Theorem find_files_leading_dot (W : World) (directory ext : str) :
  startswith ext (lit ".") = false ->
  find_files W directory [lit "." ++ ext] = find_files W directory [ext] /\
  find_files W directory [ext; lit "." ++ ext]
  = find_files W directory [ext] ++ find_files W directory [ext] /\
  find_files W directory [ext; ext]
  = find_files W directory [ext] ++ find_files W directory [ext].
Proof.
  intros Hdot.
  assert (H1 : find_files W directory [lit "." ++ ext] = find_files W directory [ext]).
  { rewrite <- (find_files_with_dot W directory [ext]). cbn [map].
    unfold with_dot. rewrite Hdot. reflexivity. }
  assert (Happ : forall e1 e2,
             find_files W directory [e1; e2]
             = find_files W directory [e1] ++ find_files W directory [e2]).
  { intros e1 e2. unfold find_files. cbn [flat_map]. rewrite !app_nil_r. reflexivity. }
  split; [exact H1 |]. split.
  - rewrite Happ. f_equal. exact H1.
  - apply Happ.
Qed.

Lemma find_files_leading_dot_witness :
  find_files (docx_dir [(a_docx, lit "x")]) (lit "dir") [lit "docx"; lit "." ++ lit "docx"]
  = find_files (docx_dir [(a_docx, lit "x")]) (lit "dir") [lit "docx"]
    ++ find_files (docx_dir [(a_docx, lit "x")]) (lit "dir") [lit "docx"].
Proof.
  apply (@find_files_leading_dot (docx_dir [(a_docx, lit "x")]) (lit "dir") (lit "docx")).
  reflexivity.
Defined.


(** ** [display_results] *)

Lemma str_eqb_eq (a b : str) : str_eqb a b = true <-> a = b.
Proof.
  unfold str_eqb. destruct (list_eq_dec N.eq_dec a b); split; congruence.
Qed.

Lemma str_eqb_refl (a : str) : str_eqb a a = true.
Proof. apply str_eqb_eq. reflexivity. Qed.

(** The loop adds to [output] the lines of the runs of [results], without
    the header of the first run when its file is the current one. *)
Lemma display_loop_groups (results : list MatchRecord) :
  forall current_file output,
    display_loop current_file results output
    = output ++
      match group_by_file results with
      | [] => []
      | (f, g) :: groups =>
          (match current_file with
           | Some c => if str_eqb c f then flat_map entry_lines g
                       else group_lines (f, g)
           | None => group_lines (f, g)
           end) ++ flat_map group_lines groups
      end.
Proof.
  induction results as [| r rest IH]; intros cur output; cbn [display_loop group_by_file].
  - rewrite app_nil_r. reflexivity.
  - rewrite IH.
    assert (Hcur : (if match cur with
                       | Some f => negb (str_eqb f (file r))
                       | None => true
                       end
                    then Some (file r) else cur) = Some (file r)).
    { destruct cur as [c |]; [| reflexivity].
      destruct (str_eqb c (file r)) eqn:Hc; [| reflexivity].
      apply str_eqb_eq in Hc. subst c. reflexivity. }
    rewrite Hcur. clear Hcur IH.
    assert (Hout : (if match cur with
                       | Some f => negb (str_eqb f (file r))
                       | None => true
                       end
                    then output ++ [file_header (file r)] else output)
                   ++ [match_line r; context r; rule_line]
                   = output ++
                     match cur with
                     | Some c => if str_eqb c (file r) then entry_lines r
                                 else file_header (file r) :: entry_lines r
                     | None => file_header (file r) :: entry_lines r
                     end).
    { destruct cur as [c |]; [destruct (str_eqb c (file r)) |]; cbn [negb];
        rewrite <- ?app_assoc; reflexivity. }
    rewrite Hout. clear Hout. rewrite <- app_assoc. f_equal.
    destruct (group_by_file rest) as [| [f g] groups].
    + cbn [flat_map group_lines fst snd app]. rewrite !app_nil_r.
      destruct cur as [c |]; [destruct (str_eqb c (file r)) |]; reflexivity.
    + destruct (str_eqb (file r) f) eqn:Hf.
      * apply str_eqb_eq in Hf. subst f.
        cbn [group_lines fst snd flat_map].
        destruct cur as [c |]; [destruct (str_eqb c (file r)) |];
          cbn [app]; rewrite <- ?app_assoc; reflexivity.
      * cbn [group_lines fst snd flat_map app]. rewrite app_nil_r.
        destruct cur as [c |]; [destruct (str_eqb c (file r)) |];
          cbn [app]; rewrite <- ?app_assoc; reflexivity.
Qed.

Lemma group_by_file_concat (results : list MatchRecord) :
  concat (map snd (group_by_file results)) = results.
Proof.
  induction results as [| r rest IH]; [reflexivity |]. cbn [group_by_file].
  destruct (group_by_file rest) as [| [f g] groups]; cbn [map snd concat] in *.
  - subst rest. reflexivity.
  - destruct (str_eqb (file r) f); cbn [map snd concat app]; rewrite IH; reflexivity.
Qed.

Lemma group_by_file_runs (results : list MatchRecord) :
  Forall (fun g => snd g <> [] /\ Forall (fun r => file r = fst g) (snd g))
         (group_by_file results).
Proof.
  induction results as [| r rest IH]; [constructor |]. cbn [group_by_file].
  destruct (group_by_file rest) as [| [f g] groups].
  - constructor; [| constructor]. cbn [fst snd]. split; [discriminate |].
    constructor; [reflexivity | constructor].
  - inversion IH as [| x l [Hne Hall] Hrest]; subst.
    destruct (str_eqb (file r) f) eqn:Hf.
    + apply str_eqb_eq in Hf. constructor; [| exact Hrest].
      cbn [fst snd] in *. split; [discriminate |]. constructor; assumption.
    + constructor; [| exact IH]. cbn [fst snd]. split; [discriminate |].
      constructor; [reflexivity | constructor].
Qed.

Lemma group_by_file_adjacent (results : list MatchRecord) :
  forall l1 g1 g2 l2,
    group_by_file results = l1 ++ g1 :: g2 :: l2 -> fst g1 <> fst g2.
Proof.
  induction results as [| r rest IH]; intros l1 g1 g2 l2 H; cbn [group_by_file] in H.
  - destruct l1; discriminate.
  - destruct (group_by_file rest) as [| [f g] groups].
    + destruct l1 as [| ? [| ? ?]]; discriminate.
    + destruct (str_eqb (file r) f) eqn:Hf.
      * destruct l1 as [| x l1]; cbn [app] in H; injection H as <- H.
        -- cbn [fst]. apply (IH [] (f, g) g2 l2). rewrite H. reflexivity.
        -- apply (IH ((f, g) :: l1) g1 g2 l2). rewrite H. reflexivity.
      * destruct l1 as [| x l1]; cbn [app] in H.
        -- injection H as <- <- _. cbn [fst]. intros Heq.
           rewrite Heq, str_eqb_refl in Hf. discriminate.
        -- injection H as _ H. apply (IH l1 g1 g2 l2). exact H.
Qed.

Lemma display_results_nonempty (results : list MatchRecord) (output_file : option str) :
  results <> [] ->
  display_results results output_file
  = match output_file with
    | Some (c :: path) =>
        [WriteFile (c :: path)
           (join [10%N] (found_line (length results)
                         :: flat_map group_lines (group_by_file results)));
         Print (lit "Results saved to " ++ c :: path)]
    | _ =>
        [Print (join [10%N] (found_line (length results)
                             :: flat_map group_lines (group_by_file results)))]
    end.
Proof.
  intros Hne. destruct results as [| r rest]; [congruence |].
  unfold display_results. rewrite display_loop_groups.
  destruct (group_by_file (r :: rest)) as [| [f g] gs]; reflexivity.
Qed.

(** X14.  For a non-empty list of results the report is, line by line,
    the count line followed, for every run of consecutive results of one
    file, by the header of the file and three lines per result (the match
    line, the context, the rule).  The runs make up the results in order,
    none is empty, and two neighbouring runs have different files.  The
    report goes to the output file when a non-empty path is given, and to
    standard output otherwise. *)
Theorem display_results_report (results : list MatchRecord) (output_file : option str) :
  results <> [] ->
  let groups := group_by_file results in
  let report :=
    join [10%N] (found_line (length results) :: flat_map group_lines groups) in
  display_results results output_file
  = match output_file with
    | Some (c :: path) =>
        [WriteFile (c :: path) report; Print (lit "Results saved to " ++ c :: path)]
    | _ => [Print report]
    end /\
  concat (map snd groups) = results /\
  Forall (fun g => snd g <> [] /\ Forall (fun r => file r = fst g) (snd g)) groups /\
  (forall l1 g1 g2 l2, groups = l1 ++ g1 :: g2 :: l2 -> fst g1 <> fst g2).
Proof.
  intros Hne groups report. split; [| split; [| split]].
  - subst report groups. apply display_results_nonempty. exact Hne.
  - apply group_by_file_concat.
  - apply group_by_file_runs.
  - apply group_by_file_adjacent.
Qed.

Lemma display_results_report_witness :
  display_results
    [record_at [lit "x y"] a_docx (lit "x") 0; record_at [lit "y"] c_docx (lit "y") 0]
    (Some (lit "out.txt"))
  = [WriteFile (lit "out.txt")
       (join [10%N]
          [found_line 2;
           file_header a_docx; lit "Match for 'x' at line 1:"; lit "x y"; rule_line;
           file_header c_docx; lit "Match for 'y' at line 1:"; lit "y"; rule_line]);
     Print (lit "Results saved to out.txt")].
Proof.
  apply (@display_results_report
           [record_at [lit "x y"] a_docx (lit "x") 0; record_at [lit "y"] c_docx (lit "y") 0]
           (Some (lit "out.txt"))).
  discriminate.
Defined.

(** ** [main] *)




(** X16.  [main] writes a file only when an output path that is not
    empty was given, files were found and at least one record was
    collected; the file is then the given path, and its content is the
    report of the sorted records. *)
Theorem main_writes_only_the_report (W : World) (E : ReEngine) (directory : str)
    (terms extensions : list str) (cs ww rx : bool) (output : option str)
    (completed : list str) (path text : str) :
  In (WriteFile path text)
     (main W E directory terms extensions cs ww rx output completed) ->
  output = Some path /\ path <> [] /\
  find_files W directory extensions <> [] /\
  main_results W E terms cs ww rx completed <> [] /\
  text = join [10%N]
           (found_line (length (main_results W E terms cs ww rx completed))
            :: flat_map group_lines
                 (group_by_file (main_results W E terms cs ww rx completed))).
Proof.
  unfold main.
  destruct (find_files W directory extensions) as [| f files]; cbn [In].
  - intros [H | []]. discriminate H.
  - intros [H | H]; [discriminate H |].
    destruct (main_results W E terms cs ww rx completed) as [| r rs] eqn:Hres.
    + destruct H as [H | []]. discriminate H.
    + rewrite display_results_nonempty in H by discriminate.
      destruct output as [[| c p] |]; cbn [In] in H.
      * destruct H as [H | []]. discriminate H.
      * destruct H as [H | [H | []]]; [| discriminate H].
        injection H as <- <-. repeat split; discriminate.
      * destruct H as [H | []]. discriminate H.
Qed.

Lemma main_writes_only_the_report_witness :
  Some (lit "out.txt") = Some (lit "out.txt") /\ lit "out.txt" <> [] /\
  find_files (docx_dir [(a_docx, lit "x y")]) (lit "dir") [lit "docx"] <> [].
Proof.
  destruct (@main_writes_only_the_report
              (docx_dir [(a_docx, lit "x y")]) LitRe.engine (lit "dir")
              [lit "x"] [lit "docx"] false false false (Some (lit "out.txt")) [a_docx]
              (lit "out.txt")
              (join [10%N]
                 [found_line 1; file_header a_docx; lit "Match for 'x' at line 1:";
                  lit "x y"; rule_line]))
    as [H1 [H2 [H3 _]]].
  - right. left. reflexivity.
  - repeat split; assumption.
Defined.

Lemma StronglySorted_impl (A : Type) (R S : A -> A -> Prop) (l : list A) :
  (forall a b, R a b -> S a b) -> StronglySorted R l -> StronglySorted S l.
Proof.
  intros H. induction 1 as [| x l Hs IH Hall]; constructor; [exact IH |].
  eapply Forall_impl; [| exact Hall]. intros b. apply H.
Qed.

Lemma str_lt_sorted_NoDup (l : list str) : StronglySorted str_lt l -> NoDup l.
Proof.
  induction 1 as [| x l Hs IH Hall]; constructor; [| exact IH].
  intros Hin. rewrite Forall_forall in Hall. specialize (Hall x Hin).
  unfold str_lt in Hall. rewrite str_compare_refl in Hall. discriminate.
Qed.

Lemma group_heads (results : list MatchRecord) (f : str) :
  In f (map fst (group_by_file results)) <->
  exists r, In r results /\ file r = f.
Proof.
  split.
  - intros H. apply in_map_iff in H. destruct H as [g [<- Hg]].
    pose proof (group_by_file_runs results) as Hruns.
    rewrite Forall_forall in Hruns. destruct (Hruns g Hg) as [Hne Hall].
    destruct (snd g) as [| r rs] eqn:Hs; [congruence |].
    exists r. split.
    + rewrite <- (group_by_file_concat results). apply in_concat.
      exists (snd g). split; [apply in_map; exact Hg | rewrite Hs; left; reflexivity].
    + inversion Hall; assumption.
  - intros [r [Hr <-]]. rewrite <- (group_by_file_concat results) in Hr.
    apply in_concat in Hr. destruct Hr as [rs [Hrs Hr]].
    apply in_map_iff in Hrs. destruct Hrs as [g [<- Hg]].
    pose proof (group_by_file_runs results) as Hruns.
    rewrite Forall_forall in Hruns. destruct (Hruns g Hg) as [_ Hall].
    rewrite Forall_forall in Hall. rewrite (Hall r Hr).
    apply in_map. exact Hg.
Qed.

(** In a list sorted by file the runs have strictly increasing files. *)
Lemma group_heads_sorted (results : list MatchRecord) :
  StronglySorted (fun a b => str_compare (file a) (file b) <> Gt) results ->
  StronglySorted str_lt (map fst (group_by_file results)).
Proof.
  induction 1 as [| r rest Hs IH Hall]; [constructor |].
  pose proof (group_heads rest) as Hheads.
  cbn [group_by_file].
  destruct (group_by_file rest) as [| [f g] groups]; cbn [map fst] in *.
  - constructor; constructor.
  - destruct (str_eqb (file r) f) eqn:Hf; cbn [map fst]; [exact IH |].
    assert (Hlt : str_lt (file r) f).
    { destruct (proj1 (Hheads f) (or_introl eq_refl)) as [r' [Hr' Hfile]].
      rewrite Forall_forall in Hall. specialize (Hall r' Hr'). rewrite Hfile in Hall.
      unfold str_lt. destruct (str_compare (file r) f) eqn:Hc; [| reflexivity | congruence].
      apply str_compare_eq in Hc. rewrite Hc, str_eqb_refl in Hf. discriminate. }
    constructor; [exact IH |]. constructor; [exact Hlt |].
    apply StronglySorted_inv in IH. destruct IH as [_ IH].
    eapply Forall_impl; [| exact IH]. intros h Hh.
    apply (str_compare_trans _ _ _ Hlt Hh).
Qed.

(** X17.  In the report of [main] every file that has a record has
    exactly one header: the runs of consecutive records of one file of
    the sorted list have pairwise different files, and a file heads a run
    exactly when one of the records carries it. *)
Theorem main_one_header_per_file (W : World) (E : ReEngine) (terms : list str)
    (cs ww rx : bool) (completed : list str) :
  let results := main_results W E terms cs ww rx completed in
  NoDup (map fst (group_by_file results)) /\
  (forall f, In f (map fst (group_by_file results)) <->
             exists r, In r results /\ file r = f).
Proof.
  intros results. split; [| apply group_heads].
  apply str_lt_sorted_NoDup, group_heads_sorted.
  apply StronglySorted_impl with (R := key_le key_ltb sort_key);
    [| apply main_results_sorted].
  unfold key_le, key_ltb, sort_key. cbn [fst snd]. intros a b H Hgt.
  rewrite (str_compare_antisym (file a) (file b)), Hgt in H. discriminate.
Qed.
